(** * dimensional-chat: speaker selection and conversation continuity

    A shallow embedding of the group-chat core of [backend/server.js]:
    the [ConversationContext] class (context store, topic extraction,
    continuity decision), [selectSpeakerByContext], the reply normaliser
    [enforceCharacterConsistency] and the handler [handleGroupChatSmart].

    JavaScript strings are sequences of UTF-16 code units, and the code
    observes exactly that ([length], [split('')], [includes]); they are
    modelled as [list N].  The static tables are written as UTF-8 string
    literals, as in the source file, and decoded by [js]. *)

From Stdlib Require Import QArith Qround Lqa.
From stdpp Require Import gmap strings list fin_maps.

Local Open Scope Z_scope.

(** ** JavaScript strings *)

Abbreviation jsstring := (list N).

Module Utf.

Definition cont (b : N) : N := N.land b 0x3F.

(** UTF-8 bytes to UTF-16 code units (well-formed input). *)
Fixpoint utf16_of_utf8 (bs : list N) : list N :=
  match bs with
  | [] => []
  | b0 :: r0 =>
    if (b0 <? 0x80)%N then b0 :: utf16_of_utf8 r0
    else if (b0 <? 0xE0)%N then
      match r0 with
      | b1 :: r1 =>
        N.lor (N.shiftl (N.land b0 0x1F) 6) (cont b1) :: utf16_of_utf8 r1
      | [] => [b0]
      end
    else if (b0 <? 0xF0)%N then
      match r0 with
      | b1 :: b2 :: r2 =>
        N.lor (N.shiftl (N.land b0 0x0F) 12)
              (N.lor (N.shiftl (cont b1) 6) (cont b2)) :: utf16_of_utf8 r2
      | _ => [b0]
      end
    else
      match r0 with
      | b1 :: b2 :: b3 :: r3 =>
        let cp := N.lor (N.shiftl (N.land b0 0x07) 18)
                  (N.lor (N.shiftl (cont b1) 12)
                  (N.lor (N.shiftl (cont b2) 6) (cont b3))) in
        let v := (cp - 0x10000)%N in
        (0xD800 + N.shiftr v 10)%N :: (0xDC00 + N.land v 0x3FF)%N
          :: utf16_of_utf8 r3
      | _ => [b0]
      end
  end.

End Utf.

(** A string literal of the source file as a JavaScript string. *)
Definition js (s : string) : jsstring :=
  Utf.utf16_of_utf8 (map Ascii.N_of_ascii (String.list_ascii_of_string s)).

(** [s.startsWith(k)] *)
Fixpoint startsWith (s k : jsstring) {struct k} : bool :=
  match k, s with
  | [], _ => true
  | _ :: _, [] => false
  | c :: k', d :: s' => (c =? d)%N && startsWith s' k'
  end.

(** [s.includes(k)] *)
Fixpoint includes (s k : jsstring) : bool :=
  startsWith s k ||
  match s with
  | [] => false
  | _ :: s' => includes s' k
  end.

(** [s.endsWith(k)] *)
Definition endsWith (s k : jsstring) : bool :=
  startsWith (reverse s) (reverse k).

(** WhiteSpace and LineTerminator code units, as removed by [trim]. *)
Definition isWhiteSpace (c : N) : bool :=
  (((0x09 <=? c) && (c <=? 0x0D)) || (c =? 0x20) || (c =? 0xA0)
   || (c =? 0x1680) || ((0x2000 <=? c) && (c <=? 0x200A))
   || (c =? 0x2028) || (c =? 0x2029) || (c =? 0x202F)
   || (c =? 0x205F) || (c =? 0x3000) || (c =? 0xFEFF))%N.

Fixpoint trimStart (s : jsstring) : jsstring :=
  match s with
  | [] => []
  | c :: s' => if isWhiteSpace c then trimStart s' else s
  end.

Definition trimEnd (s : jsstring) : jsstring :=
  reverse (trimStart (reverse s)).

(** [s.trim()] *)
Definition trim (s : jsstring) : jsstring := trimEnd (trimStart s).

(** JavaScript truthiness of a value that is a string, [null] or
    [undefined]. *)
Definition truthy (v : option jsstring) : bool :=
  match v with
  | Some (_ :: _) => true
  | _ => false
  end.

(** A call either returns a value or throws (a [TypeError] on a property
    access on [undefined]). *)
Inductive outcome (A : Type) : Type :=
| Returns (a : A)
| Throws.
Arguments Returns {A} a.
Arguments Throws {A}.

(** ** Static tables *)

(** [speakerKeywords], in [Object.entries] order.  The class method and the
    module-level function carry the same literal. *)
Definition speakerKeywords : list (jsstring * list jsstring) :=
  [ (js "张起灵", [js "小哥"; js "族长"; js "张起灵"; js "闷油瓶"; js "小哥在吗"; js "张起灵在吗"]);
    (js "王胖子", [js "胖子"; js "王胖子"; js "胖爷"; js "胖子在吗"; js "王胖子在吗"]);
    (js "吴邪", [js "吴邪"; js "天真"; js "小三爷"; js "吴邪在吗"]);
    (js "黑瞎子", [js "黑瞎子"; js "黑瞎子在吗"]);
    (js "解雨臣", [js "解雨臣"; js "花儿"; js "花儿爷"; js "解雨臣在吗"]);
    (js "霍秀秀", [js "霍秀秀"; js "秀秀"; js "霍秀秀在吗"]) ].

Definition topics : list jsstring :=
  [ js "小哥"; js "张起灵"; js "族长"; js "闷油瓶";
    js "胖子"; js "王胖子"; js "胖爷";
    js "吴邪"; js "天真"; js "小三爷";
    js "黑瞎子"; js "花儿爷"; js "花儿"; js "解雨臣"; js "霍秀秀";
    js "考古"; js "古墓"; js "探险"; js "危险"; js "线索";
    js "三叔"; js "青铜"; js "秘密"; js "机关" ].

Definition continuationIndicators : list jsstring :=
  [ js "然后呢"; js "接着说"; js "还有呢"; js "后来呢"; js "怎么样";
    js "真的吗"; js "为什么"; js "怎么"; js "如何"; js "那";
    js "嗯"; js "哦"; js "啊"; js "好吧"; js "原来如此" ].

Definition keywordMapping : list (jsstring * list jsstring) :=
  [ (js "张起灵", [js "小哥"; js "族长"; js "张起灵"; js "闷油瓶"; js "身手"; js "武功"; js "厉害"; js "强"]);
    (js "王胖子", [js "胖子"; js "王胖子"; js "胖爷"; js "搞笑"; js "幽默"; js "吃的"; js "钱"]);
    (js "吴邪", [js "三叔"; js "考古"; js "研究"; js "古董"; js "线索"; js "为什么"; js "怎么"]);
    (js "黑瞎子", [js "黑瞎子"; js "经验"; js "道上"; js "老练"; js "神秘"]);
    (js "解雨臣", [js "解雨臣"; js "花儿"; js "花儿爷"; js "分析"; js "逻辑"; js "目的"; js "考虑"; js "谨慎"; js "计划"]);
    (js "霍秀秀", [js "霍秀秀"; js "秀秀"; js "细节"; js "观察"; js "发现"; js "注意"; js "女性"; js "细心"; js "聪明"]) ].

(** Property lookup [table[key]] on an object literal. *)
Fixpoint prop {A : Type} (table : list (jsstring * A)) (key : jsstring)
  : option A :=
  match table with
  | [] => None
  | (k, v) :: rest => if decide (k = key) then Some v else prop rest key
  end.

(** ** Topic and mention extraction *)

(** [extractTopic]: the first entry of [topics] found in the message. *)
Fixpoint firstIncluded (message : jsstring) (ts : list jsstring)
  : option jsstring :=
  match ts with
  | [] => None
  | topic :: rest =>
    if includes message topic then Some topic else firstIncluded message rest
  end.

Definition extractTopic (message : jsstring) : option jsstring :=
  firstIncluded message topics.

(** The inner loop of [getMentionedSpeakers]: push once and [break] at the
    first keyword found. *)
Fixpoint anyIncluded (message : jsstring) (keywords : list jsstring) : bool :=
  match keywords with
  | [] => false
  | keyword :: rest =>
    if includes message keyword then true else anyIncluded message rest
  end.

Fixpoint mentionedIn (table : list (jsstring * list jsstring))
    (message : jsstring) : list jsstring :=
  match table with
  | [] => []
  | (speaker, keywords) :: rest =>
    if anyIncluded message keywords
    then speaker :: mentionedIn rest message
    else mentionedIn rest message
  end.

Definition getMentionedSpeakers (message : jsstring) : list jsstring :=
  mentionedIn speakerKeywords message.

(** ** Per-conversation context store ([class ConversationContext]) *)

Record history_entry : Type := {
  h_speaker : jsstring;
  h_timestamp : Z;
  h_message : jsstring
}.

Record context : Type := {
  currentSpeaker : option jsstring;
  topic : option jsstring;
  lastUserMessage : jsstring;
  messageCount : Z;
  speakerHistory : list history_entry
}.

(** [this.contexts]: userId -> (character -> context). *)
Abbreviation contexts := (gmap (list N) (gmap (list N) context)).

Definition newContext : context :=
  {| currentSpeaker := None; topic := None; lastUserMessage := [];
     messageCount := 0; speakerHistory := [] |}.

(** [arr.slice(-n)] *)
Definition sliceLast {A : Type} (n : nat) (l : list A) : list A :=
  drop (length l - n)%nat l.

(** [getUserContext] creates the inner map and the context on a miss and
    returns the stored context; the store is threaded explicitly. *)
Definition getUserContext (cs : contexts) (userId character : jsstring)
  : context * contexts :=
  let cs1 :=
    match cs !! userId with
    | Some _ => cs
    | None => <[userId := ∅]> cs
    end in
  let userContexts := default ∅ (cs1 !! userId) in
  let userContexts' :=
    match userContexts !! character with
    | Some _ => userContexts
    | None => <[character := newContext]> userContexts
    end in
  (default newContext (userContexts' !! character),
   <[userId := userContexts']> cs1).

(** Write a mutated context object back at its key. *)
Definition putContext (cs : contexts) (userId character : jsstring)
    (ctx : context) : contexts :=
  <[userId := <[character := ctx]> (default ∅ (cs !! userId))]> cs.

(** [updateContext]; [now] is the value of [Date.now()]. *)
Definition updateContext (now : Z) (cs : contexts)
    (userId character speaker userMessage : jsstring) : contexts :=
  let '(ctx, cs') := getUserContext cs userId character in
  let pushed :=
    speakerHistory ctx ++
    [ {| h_speaker := speaker; h_timestamp := now;
         h_message := userMessage |} ] in
  let kept :=
    if (10 <? length pushed)%nat then sliceLast 10 pushed else pushed in
  putContext cs' userId character
    {| currentSpeaker := Some speaker;
       topic := extractTopic userMessage;
       lastUserMessage := userMessage;
       messageCount := messageCount ctx + 1;
       speakerHistory := kept |}.

(** ** Continuity engine *)

Definition isConversationContinuation (currentMessage lastMessage : jsstring)
  : bool :=
  if (length currentMessage <=? 5)%nat then true
  else if anyIncluded currentMessage continuationIndicators then true
  else if includes lastMessage (js "?") || includes lastMessage (js "？")
  then true
  else false.

(** [currentTopic && context.topic && currentTopic === context.topic] *)
Definition sameTopic (currentTopic storedTopic : option jsstring) : bool :=
  truthy currentTopic && truthy storedTopic
  && bool_decide (currentTopic = storedTopic).

Definition shouldContinueWithSameSpeaker (cs : contexts)
    (userId character userMessage : jsstring) : bool * contexts :=
  let '(ctx, cs') := getUserContext cs userId character in
  let result :=
    if messageCount ctx <? 2 then false
    else
      let mentionedSpeakers := getMentionedSpeakers userMessage in
      if (0 <? length mentionedSpeakers)%nat then false
      else
        let currentTopic := extractTopic userMessage in
        if sameTopic currentTopic (topic ctx) then true
        else if isConversationContinuation userMessage (lastUserMessage ctx)
        then true
        else false in
  (result, cs').

Definition getContinuationSpeaker (cs : contexts)
    (userId character : jsstring) : option jsstring * contexts :=
  let '(ctx, cs') := getUserContext cs userId character in
  (currentSpeaker ctx, cs').

(** ** Group configuration *)

(** A group: its ordered member list and the keys of [memberDetails] with
    their [maxTokens].  The [prompt] texts only flow into the request sent
    to the completion service and are left out. *)
Record groupConfig : Type := {
  members : list jsstring;
  memberDetails : list (jsstring * Z)
}.

Definition groupConfigs : list (jsstring * groupConfig) :=
  [ (js "铁三角",
     {| members := [js "王胖子"; js "吴邪"; js "张起灵"];
        memberDetails :=
          [(js "王胖子", 150); (js "吴邪", 200); (js "张起灵", 30)] |});
    (js "嫩牛六方",
     {| members := [js "黑瞎子"; js "解雨臣"; js "霍秀秀";
                    js "王胖子"; js "吴邪"; js "张起灵"];
        memberDetails :=
          [(js "黑瞎子", 150); (js "解雨臣", 180); (js "霍秀秀", 160);
           (js "王胖子", 150); (js "吴邪", 200); (js "张起灵", 30)] |}) ].

(** ** Speaker selection *)

(** An entry of [conversationHistory]. *)
Record chat_message : Type := {
  msg_type : jsstring;
  msg_name : option jsstring;
  msg_text : jsstring
}.

(** [msg.type === 'bot' && msg.name] *)
Definition isNamedBot (msg : chat_message) : bool :=
  bool_decide (msg_type msg = js "bot") && truthy (msg_name msg).

Definition recentSpeakersOf (conversationHistory : list chat_message)
  : list jsstring :=
  let recentMessages := sliceLast 8 conversationHistory in
  map (λ msg, default [] (msg_name msg)) (List.filter isNamedBot recentMessages).

(** [members.forEach(member => { obj[member] = f(member); })] on an object
    that starts empty. *)
Definition assignAll (f : jsstring → Z) (members : list jsstring)
  : gmap (list N) Z :=
  foldl (λ acc member, <[member := f member]> acc) ∅ members.

(** [speakerCount]: every member starts at 0, then one increment per recent
    speaker that is an own key. *)
Definition initCount (members : list jsstring) : gmap (list N) Z :=
  assignAll (λ _, 0) members.

Definition bumpCount (acc : gmap (list N) Z) (speaker : jsstring)
  : gmap (list N) Z :=
  match acc !! speaker with
  | Some n => <[speaker := n + 1]> acc
  | None => acc
  end.

Definition speakerCountOf (members recentSpeakers : list jsstring)
  : gmap (list N) Z :=
  foldl bumpCount (initCount members) recentSpeakers.

(** [Math.random()] is an argument [u]; arithmetic on it is exact. *)
Definition index {A : Type} (l : list A) (i : Z) : option A :=
  if i <? 0 then None else l !! Z.to_nat i.

(** [arr[Math.floor(Math.random() * arr.length)]] *)
Definition randomPick {A : Type} (u : Q) (l : list A) : option A :=
  index l (Qfloor (u * inject_Z (Z.of_nat (length l)))).

(** The weighted walk: [None] when the loop ends without returning.  A
    missing score makes [random] NaN, after which no test succeeds. *)
Fixpoint weightedWalk (speakerScores : gmap (list N) Z)
    (members : list jsstring) (random : Q) : option jsstring :=
  match members with
  | [] => None
  | member :: rest =>
    match speakerScores !! member with
    | None => None
    | Some score =>
      let random' := (random - inject_Z score)%Q in
      if Qle_bool random' 0 then Some member
      else weightedWalk speakerScores rest random'
    end
  end.

(** The fallback loop: [minCount] starts at [Infinity] ([None]). *)
Fixpoint leastFrequentFrom (speakerCount : gmap (list N) Z)
    (members : list jsstring) (minCount : option Z)
    (leastFrequent : option jsstring) : option jsstring :=
  match members with
  | [] => leastFrequent
  | member :: rest =>
    let c := speakerCount !!! member in
    let smaller :=
      match minCount with
      | None => true
      | Some m => c <? m
      end in
    if smaller then leastFrequentFrom speakerCount rest (Some c) (Some member)
    else leastFrequentFrom speakerCount rest minCount leastFrequent
  end.

Section Scoring.

(** [String.prototype.toLowerCase] is a built-in; the model is
    parametric in it. *)
Variable toLowerCase : jsstring → jsstring.

Definition keywordScore (messageLower member : jsstring) (score : Z) : Z :=
  match prop keywordMapping member with
  | Some keywords =>
    foldl (λ sc keyword,
             if includes messageLower (toLowerCase keyword)
             then sc + 8 else sc)
          score keywords
  | None => score
  end.

(** The body of [members.forEach(member => ...)].  Every member is a key
    of [speakerCount], so the lookup is total. *)
Definition memberScore (speakerCount : gmap (list N) Z)
    (recentSpeakers : list jsstring) (messageLower member : jsstring) : Z :=
  let score := 0 in
  let score := score + (10 - Z.min (speakerCount !!! member) 10) * 3 in
  let score := keywordScore messageLower member score in
  let score :=
    if (0 <? length recentSpeakers)%nat
       && bool_decide (last recentSpeakers = Some member)
    then score - 5 else score in
  let score :=
    if bool_decide (member = js "张起灵") then score - 3 else score in
  let score :=
    if bool_decide (member = js "王胖子") || bool_decide (member = js "吴邪")
    then score + 2 else score in
  Z.max score 1.

Definition speakerScoresOf (members : list jsstring)
    (speakerCount : gmap (list N) Z) (recentSpeakers : list jsstring)
    (messageLower : jsstring) : gmap (list N) Z :=
  assignAll (memberScore speakerCount recentSpeakers messageLower) members.

(** [Object.values(speakerScores).reduce((sum, score) => sum + score, 0)];
    the scores are integers, so the order of the sum is immaterial. *)
Definition totalScoreOf (speakerScores : gmap (list N) Z) : Z :=
  map_fold (λ _ score sum, sum + score) 0 speakerScores.

(** Steps 2 to the end of [selectSpeakerByContext]. *)
Definition scoringPath (u : Q) (members : list jsstring)
    (message : jsstring) (conversationHistory : list chat_message)
  : option jsstring :=
  let recentSpeakers := recentSpeakersOf conversationHistory in
  let speakerCount := speakerCountOf members recentSpeakers in
  let messageLower := toLowerCase message in
  let speakerScores :=
    speakerScoresOf members speakerCount recentSpeakers messageLower in
  let totalScore := totalScoreOf speakerScores in
  let random := (u * inject_Z totalScore)%Q in
  match weightedWalk speakerScores members random with
  | Some member => Some member
  | None => leastFrequentFrom speakerCount members None (head members)
  end.

(** [selectSpeakerByContext]: [Throws] when [groupConfigs[character]] is
    [undefined]; the returned speaker is [None] for [undefined]. *)
Definition selectSpeakerByContext (u : Q) (character message : jsstring)
    (conversationHistory : list chat_message) : outcome (option jsstring) :=
  match prop groupConfigs character with
  | None => Throws
  | Some groupConfig =>
    let members := members groupConfig in
    let mentionedSpeakers := getMentionedSpeakers message in
    let byScore :=
      Returns (scoringPath u members message conversationHistory) in
    if (0 <? length mentionedSpeakers)%nat then
      let availableMentioned :=
        List.filter (λ speaker, bool_decide (speaker ∈ members))
                    mentionedSpeakers in
      match availableMentioned with
      | selected :: _ => Returns (Some selected)
      | [] => byScore
      end
    else byScore
  end.

End Scoring.

(** ** Reply normaliser *)

Definition isHighSurrogate (c : N) : bool := ((0xD800 <=? c) && (c <=? 0xDBFF))%N.
Definition isLowSurrogate (c : N) : bool := ((0xDC00 <=? c) && (c <=? 0xDFFF))%N.

Definition codePoint (hi lo : N) : N :=
  (0x10000 + (hi - 0xD800) * 0x400 + (lo - 0xDC00))%N.

(** The character class of the emoji pattern. *)
Definition isEmoji (cp : N) : bool :=
  (((0x1F600 <=? cp) && (cp <=? 0x1F64F))
   || ((0x1F300 <=? cp) && (cp <=? 0x1F5FF))
   || ((0x1F680 <=? cp) && (cp <=? 0x1F6FF))
   || ((0x1F1E0 <=? cp) && (cp <=? 0x1F1FF)))%N.

(** [reply.replace(/.../gu, '')]: with the [u] flag the pattern is matched
    against code points, so a surrogate pair is one character. *)
Fixpoint stripEmoji (s : jsstring) : jsstring :=
  match s with
  | [] => []
  | c :: rest =>
    match rest with
    | d :: rest' =>
      if isHighSurrogate c && isLowSurrogate d then
        if isEmoji (codePoint c d) then stripEmoji rest'
        else c :: d :: stripEmoji rest'
      else c :: stripEmoji rest
    | [] => [c]
    end
  end.

Definition shortReplies : list jsstring :=
  [js "嗯"; js "好"; js "小心"; js "危险"; js "..."; js "不行"; js "有东西"].

(** [split('')] yields one element per code unit. *)
Definition truncate20 (reply : jsstring) : jsstring :=
  let words := reply in
  if (20 <? length words)%nat then take 20 words ++ js "..." else reply.

(** [enforceCharacterConsistency]; [u] is the value of [Math.random()], and
    [Throws] stands for [undefined.trim()]. *)
Definition enforceCharacterConsistency (u : Q) (reply speaker : jsstring)
  : outcome jsstring :=
  if bool_decide (speaker = js "张起灵") then
    let reply := stripEmoji reply in
    let reply := truncate20 reply in
    if (25 <? length reply)%nat then
      match randomPick u shortReplies with
      | Some picked => Returns (trim picked)
      | None => Throws
      end
    else Returns (trim reply)
  else Returns (trim reply).

(** ** Group-chat handler *)

Definition fallbacks : list (jsstring * list jsstring) :=
  [ (js "王胖子",
     [js "嘿，您这话问得！胖爷我得琢磨琢磨。";
      js "这位朋友消息灵通啊！打哪儿听来的？";
      js "好家伙，这事儿您都知道？靠谱！"]);
    (js "吴邪",
     [js "这件事说来话长...你是怎么知道这些的？";
      js "三叔要是知道我在聊这个...";
      js "这个线索很有意思，我还在研究中。"]);
    (js "张起灵", [js "..."; js "小心"; js "危险"; js "有东西"]);
    (js "黑瞎子",
     [js "新面孔？有点意思。";
      js "你这问题问得挺刁钻啊。";
      js "经验告诉我，这事儿不简单。"]);
    (js "解雨臣",
     [js "从逻辑上分析...";
      js "你的目的是什么？";
      js "这件事需要谨慎考虑。"]);
    (js "霍秀秀",
     [js "我注意到一个细节...";
      js "你的观察很敏锐。";
      js "这个发现很有意思。"]) ].

Definition speakerFallbacksOf (speaker : jsstring) : list jsstring :=
  default [js "我现在无法回复。"] (prop fallbacks speaker).

Definition getGroupFallbackResponse (u : Q) (speaker : jsstring)
  : option jsstring :=
  randomPick u (speakerFallbacksOf speaker).

(** The completion call: a reply text, or any failure raised inside the
    [try] block by the request or by reading the response. *)
Inductive apiResult : Type :=
| ApiReply (content : jsstring)
| ApiError.

(** The body passed to [res.json]. *)
Record response : Type := {
  res_reply : option jsstring;
  res_speaker : jsstring;
  res_fallback : bool
}.

Section Handler.

Variable toLowerCase : jsstring → jsstring.

(** [handleGroupChatSmart].  [uSelect], [uEnforce] and [uFallback] are the
    values of the three [Math.random()] calls, [now] that of [Date.now()]
    and [api] the result of the request.  The store is returned also when
    the handler throws. *)
Definition handleGroupChatSmart (uSelect uEnforce uFallback : Q) (now : Z)
    (api : apiResult) (cs : contexts) (userId character message : jsstring)
    (conversationHistory : list chat_message)
  : outcome response * contexts :=
  let '(shouldContinue, cs) :=
    shouldContinueWithSameSpeaker cs userId character message in
  let '(selected, cs) :=
    if shouldContinue then
      let '(speaker, cs) := getContinuationSpeaker cs userId character in
      (Returns speaker, cs)
    else
      (selectSpeakerByContext toLowerCase uSelect character message
         conversationHistory, cs) in
  match selected, prop groupConfigs character with
  | Returns (Some selectedSpeaker), Some groupConfig =>
    match prop (memberDetails groupConfig) selectedSpeaker with
    | None => (Throws, cs)
    | Some maxTokens =>
      let onError :=
        (Returns {| res_reply := getGroupFallbackResponse uFallback selectedSpeaker;
                    res_speaker := selectedSpeaker;
                    res_fallback := true |}, cs) in
      match api with
      | ApiReply content =>
        match enforceCharacterConsistency uEnforce (trim content)
                selectedSpeaker with
        | Returns aiReply =>
          (Returns {| res_reply := Some aiReply;
                      res_speaker := selectedSpeaker;
                      res_fallback := false |},
           updateContext now cs userId character selectedSpeaker message)
        | Throws => onError
        end
      | ApiError => onError
      end
    end
  | _, _ => (Throws, cs)
  end.

End Handler.

(** ** Notions used in the statements *)

(** [includes] decides the substring relation. *)
Definition substring (k s : jsstring) : Prop :=
  ∃ pre post, s = pre ++ k ++ post.

Definition lookupContext (cs : contexts) (userId character : jsstring)
  : option context :=
  cs !! userId ≫= λ userContexts, userContexts !! character.

(** The context a method sees for a key: the stored one, or the fresh one
    that [getUserContext] creates on a miss. *)
Definition contextOf (cs : contexts) (userId character : jsstring) : context :=
  default newContext (lookupContext cs userId character).

(** A store in which one user has exchanged two messages with the group
    铁三角 and 王胖子 answered last. *)
Definition talkingToPangzi : contexts :=
  {[ js "user_1" :=
       {[ js "铁三角" :=
            {| currentSpeaker := Some (js "王胖子");
               topic := None;
               lastUserMessage := js "你们好";
               messageCount := 2;
               speakerHistory := [] |} ]} ]}.

(** A store whose previous user message holds a question mark in its
    middle, not at its end. *)
Definition askedMidSentence : contexts :=
  {[ js "user_1" :=
       {[ js "铁三角" :=
            {| currentSpeaker := Some (js "吴邪");
               topic := None;
               lastUserMessage := js "你好吗?我是新来的";
               messageCount := 2;
               speakerHistory := [] |} ]} ]}.

(** One call of [updateContext], with the clock value it reads. *)
Record updateCall : Type := {
  c_now : Z;
  c_userId : jsstring;
  c_character : jsstring;
  c_speaker : jsstring;
  c_userMessage : jsstring
}.

Definition applyUpdate (cs : contexts) (c : updateCall) : contexts :=
  updateContext (c_now c) cs (c_userId c) (c_character c) (c_speaker c)
    (c_userMessage c).

Definition runUpdates (cs : contexts) (calls : list updateCall) : contexts :=
  foldl applyUpdate cs calls.

Definition entryOf (c : updateCall) : history_entry :=
  {| h_speaker := c_speaker c; h_timestamp := c_now c;
     h_message := c_userMessage c |}.

(** The entries that the calls append to the history of one key, in call
    order. *)
Definition entriesFor (userId character : jsstring) (calls : list updateCall)
  : list history_entry :=
  map entryOf
    (List.filter
       (λ c, bool_decide ((c_userId c, c_character c) = (userId, character)))
       calls).

(** Twelve turns of one user in one group, the clock advancing by one. *)
Definition twelveTurns : list updateCall :=
  map (λ i, {| c_now := i; c_userId := js "user_1"; c_character := js "铁三角";
               c_speaker := js "吴邪"; c_userMessage := js "然后呢" |})
      (seqZ 0 12).

(** The scores read along a walk over [l], a missing key counting 0. *)
Definition sumOver (m : gmap (list N) Z) (l : list jsstring) : Z :=
  foldr (λ k acc, default 0 (m !! k) + acc) 0 l.

(** The quantities of the score formula, stated on the history itself. *)
Definition recencyCount (M : jsstring) (conversationHistory : list chat_message)
  : Z :=
  Z.of_nat
    (length
       (List.filter
          (λ msg, bool_decide (msg_type msg = js "bot" ∧ msg_name msg = Some M))
          (sliceLast 8 conversationHistory))).

Definition keywordHits (messageLower M : jsstring) : Z :=
  Z.of_nat
    (length
       (List.filter (λ keyword, includes messageLower keyword)
          (default [] (prop keywordMapping M)))).

(** The speaker of the last named bot entry among the last eight messages. *)
Definition lastBotSpeaker (conversationHistory : list chat_message)
  : option jsstring :=
  last (List.filter isNamedBot (sliceLast 8 conversationHistory)) ≫= msg_name.

Definition personaAdjustment (M : jsstring) : Z :=
  if bool_decide (M = js "张起灵") then -3
  else if bool_decide (M = js "王胖子") then 2
  else if bool_decide (M = js "吴邪") then 2
  else 0.

Definition scoreFormula (toLowerCase : jsstring → jsstring)
    (M message : jsstring) (conversationHistory : list chat_message) : Z :=
  Z.max 1
    ((10 - Z.min (recencyCount M conversationHistory) 10) * 3
     + 8 * keywordHits (toLowerCase message) M
     - (if bool_decide (lastBotSpeaker conversationHistory = Some M)
        then 5 else 0)
     + personaAdjustment M).

(** The [speakerScores] object of the scoring path. *)
Definition scoresOnPath (toLowerCase : jsstring → jsstring)
    (members : list jsstring) (message : jsstring)
    (conversationHistory : list chat_message) : gmap (list N) Z :=
  let recentSpeakers := recentSpeakersOf conversationHistory in
  speakerScoresOf toLowerCase members
    (speakerCountOf members recentSpeakers) recentSpeakers
    (toLowerCase message).

(** [toLowerCase] leaves the configured keywords, which are written in
    caseless script, unchanged. *)
Definition fixesKeywords (toLowerCase : jsstring → jsstring) : Prop :=
  Forall (λ entry : jsstring * list jsstring,
            Forall (λ keyword, toLowerCase keyword = keyword) entry.2)
         keywordMapping.

(** Lower-casing of the ASCII letters only. *)
Definition asciiLower (s : jsstring) : jsstring :=
  map (λ c, if ((0x41 <=? c) && (c <=? 0x5A))%N then (c + 32)%N else c) s.

Definition occurrences (M : jsstring) (l : list jsstring) : nat :=
  length (List.filter (λ x, bool_decide (x = M)) l).

(** A history in which 王胖子 was the last persona to speak. *)
Definition pangziSpokeLast : list chat_message :=
  [ {| msg_type := js "user"; msg_name := None; msg_text := js "你们好" |};
    {| msg_type := js "bot"; msg_name := Some (js "王胖子");
       msg_text := js "嘿，这位朋友打哪儿来？" |} ].

(** Step 1 of the handler: the speaker chosen for the turn. *)
Definition selectTurnSpeaker (toLowerCase : jsstring → jsstring) (uSelect : Q)
    (cs : contexts) (userId character message : jsstring)
    (conversationHistory : list chat_message) : outcome (option jsstring) :=
  if (shouldContinueWithSameSpeaker cs userId character message).1
  then Returns (currentSpeaker (contextOf cs userId character))
  else selectSpeakerByContext toLowerCase uSelect character message
         conversationHistory.

(** The topics that are not also a mention keyword of some persona. *)
Definition plainTopics : list jsstring :=
  [ js "考古"; js "古墓"; js "探险"; js "危险"; js "线索";
    js "三叔"; js "青铜"; js "秘密"; js "机关" ].

(** [t] is one of the mention keywords of some persona. *)
Definition isMentionKeyword (t : jsstring) : bool :=
  existsb (λ entry : jsstring * list jsstring, bool_decide (t ∈ entry.2))
          speakerKeywords.

(** The handler of [DELETE /api/conversation-context/:character]: the
    context entry is deleted from the user's map when the user has one. *)
Definition resetContext (cs : contexts) (userId character : jsstring)
  : contexts :=
  match cs !! userId with
  | Some userContexts => <[userId := delete character userContexts]> cs
  | None => cs
  end.

(** The sum of the scores of a list of members. *)
Definition scoreSum (score : jsstring → Z) (l : list jsstring) : Z :=
  foldr (λ x acc, score x + acc) 0 l.

(** A string that neither starts nor ends with white space. *)
Definition noEdgeWhiteSpace (s : jsstring) : Prop :=
  (∀ c, head s = Some c → isWhiteSpace c = false)
  ∧ (∀ c, last s = Some c → isWhiteSpace c = false).

(** Well-formed UTF-16: every code unit is below 0x10000, every high
    surrogate is followed by a low one and no low surrogate stands alone. *)
Fixpoint wellFormed (s : jsstring) : bool :=
  match s with
  | [] => true
  | c :: rest =>
    if isHighSurrogate c then
      match rest with
      | d :: rest' => isLowSurrogate d && wellFormed rest'
      | [] => false
      end
    else negb (isLowSurrogate c) && (c <? 0x10000)%N && wellFormed rest
  end.

(** The code points of a string, read as the [u] flag reads them. *)
Fixpoint codePoints (s : jsstring) : list N :=
  match s with
  | [] => []
  | c :: rest =>
    match rest with
    | d :: rest' =>
      if isHighSurrogate c && isLowSurrogate d
      then codePoint c d :: codePoints rest'
      else c :: codePoints rest
    | [] => [c]
    end
  end.

(** A stored context names a speaker of its group, unless fewer than two
    messages were processed. *)
Definition speakerKnown (ctx : context) (group : groupConfig) : Prop :=
  match currentSpeaker ctx with
  | Some speaker => speaker ∈ members group
  | None => messageCount ctx < 2
  end.

Definition wellFormedStore (cs : contexts) : Prop :=
  ∀ userId character group ctx,
    prop groupConfigs character = Some group →
    lookupContext cs userId character = Some ctx →
    speakerKnown ctx group.

(** A store in which 张起灵 answered the second of two messages. *)
Definition talkingToXiaoge : contexts :=
  {[ js "user_1" :=
       {[ js "铁三角" :=
            {| currentSpeaker := Some (js "张起灵");
               topic := None;
               lastUserMessage := js "前面的路安全吗";
               messageCount := 2;
               speakerHistory := [] |} ]} ]}.

(** An entry of [this.cache]. *)
Record cacheItem : Type := {
  item_value : jsstring;
  item_expiry : Z
}.

(** [SimpleCache.set(key, value, ttl)]; [now] is the value of [Date.now()]. *)
Definition cache_set (now : Z) (cache : gmap (list N) cacheItem)
    (key value : jsstring) (ttl : Z) : gmap (list N) cacheItem :=
  <[key := {| item_value := value; item_expiry := now + ttl |}]> cache.

(** The default of the [ttl] parameter. *)
Definition defaultTtl : Z := 300000.

(** [SimpleCache.get(key)]: [None] is [null]; an entry found expired is
    deleted. *)
Definition cache_get (now : Z) (cache : gmap (list N) cacheItem)
    (key : jsstring) : option jsstring * gmap (list N) cacheItem :=
  match cache !! key with
  | None => (None, cache)
  | Some item =>
    if item_expiry item <? now then (None, delete key cache)
    else (Some (item_value item), cache)
  end.

(** [SimpleCache.getStats().keys] *)
Definition cache_keys (cache : gmap (list N) cacheItem) : nat := size cache.

(** [arr.join(sep)] *)
Definition joinWith (sep : jsstring) (l : list jsstring) : jsstring :=
  match l with
  | [] => []
  | x :: rest => x ++ flat_map (λ y, sep ++ y) rest
  end.

Definition generateCacheKey (character message : jsstring)
    (conversationHistory : list chat_message) (speaker : option jsstring)
  : jsstring :=
  let historyText :=
    joinWith (js "|")
      (map (λ msg, msg_type msg ++ js ":" ++ msg_text msg)
           conversationHistory) in
  character ++ js ":"
  ++ (if truthy speaker then default [] speaker else js "default")
  ++ js ":" ++ message ++ js ":" ++ historyText.

(** The property names that every object literal inherits from
    [Object.prototype]; their values are functions or objects, hence
    truthy and not strings. *)
Definition objectPrototypeKeys : list jsstring :=
  [ js "constructor"; js "__defineGetter__"; js "__defineSetter__";
    js "hasOwnProperty"; js "__lookupGetter__"; js "__lookupSetter__";
    js "isPrototypeOf"; js "propertyIsEnumerable"; js "toString";
    js "valueOf"; js "__proto__"; js "toLocaleString" ].

Definition characterFallbacks : list (jsstring * jsstring) :=
  [ (js "克莱恩", js "抱歉，占卜显示现在不是交流的好时机。也许稍后再试？🔮");
    (js "愚者", js "灰雾暂时遮蔽了回应...请稍后再祈祷。🌫️");
    (js "吴邪", js "这个问题有点复杂，让我再研究研究...📚");
    (js "张起灵", js "...");
    (js "韩立", js "此事需从长计议。🧘");
    (js "塔罗会", js "塔罗会成员正在讨论中...🃏");
    (js "铁三角", js "我们正在商量这件事...🔺");
    (js "嫩牛六方", js "团队正在评估情况...🗺️");
    (js "神灵聚会", js "神灵们正在商议...✨") ].

(** [getFallbackResponse(character, userMessage)], which does not read the
    message: [None] stands for a value inherited from [Object.prototype],
    which is not a string. *)
Definition getFallbackResponse (character : jsstring) : option jsstring :=
  match prop characterFallbacks character with
  | Some text => Some text
  | None =>
    if bool_decide (character ∈ objectPrototypeKeys) then None
    else Some (js "我现在无法回复，请稍后再试。")
  end.

(** The body that [handleSingleChat] passes to [res.json]. *)
Record singleResponse : Type := {
  sres_reply : option jsstring;
  sres_cached : bool;
  sres_fallback : bool
}.

(** [handleSingleChat]; [nowGet] and [nowSet] are the clock values read by
    the cache lookup and by the cache store, [api] the result of the
    request.  The reply of the service is used as it comes. *)
Definition handleSingleChat (nowGet nowSet : Z) (api : apiResult)
    (cache : gmap (list N) cacheItem) (character message : jsstring)
    (conversationHistory : list chat_message)
  : singleResponse * gmap (list N) cacheItem :=
  let cacheKey := generateCacheKey character message conversationHistory None in
  let '(cachedResponse, cache) := cache_get nowGet cache cacheKey in
  if truthy cachedResponse then
    ({| sres_reply := cachedResponse; sres_cached := true;
        sres_fallback := false |}, cache)
  else
    match api with
    | ApiReply aiReply =>
      ({| sres_reply := Some aiReply; sres_cached := false;
          sres_fallback := false |},
       cache_set nowSet cache cacheKey aiReply defaultTtl)
    | ApiError =>
      ({| sres_reply := getFallbackResponse character; sres_cached := false;
          sres_fallback := true |}, cache)
    end.

(** The label of a history line. *)
Definition speakerLabel (msg : chat_message) : jsstring :=
  if bool_decide (msg_type msg = js "user") then js "用户"
  else if truthy (msg_name msg) then default [] (msg_name msg)
  else js "角色".

(** [formatConversationHistory]; [10] is the line feed. *)
Definition formatConversationHistory (conversationHistory : list chat_message)
  : jsstring :=
  if (length conversationHistory =? 0)%nat then js "这是对话的开始"
  else
    let recentHistory := sliceLast 6 conversationHistory in
    foldl (λ historyText msg,
             historyText ++ speakerLabel msg ++ js ": " ++ msg_text msg
             ++ [10%N])
          (js "最近的对话：" ++ [10%N]) recentHistory.

(** A value of [this.sessions]. *)
Record sessionData : Type := {
  s_userId : jsstring;
  createdAt : Z;
  lastActivity : Z;
  prayerCount : Z;
  lastPrayerReset : Z
}.

(** [this.sessionTimeout], 24 hours in milliseconds. *)
Definition sessionTimeout : Z := 24 * 60 * 60 * 1000.

(** [createSession]; [sessionId] is the identifier that [generateSessionId]
    draws, and [t1], [t2], [t3] are the three clock values read. *)
Definition createSession (sessionId : jsstring) (t1 t2 t3 : Z)
    (sessions : gmap (list N) sessionData) (userId : jsstring)
  : jsstring * gmap (list N) sessionData :=
  let sessionData :=
    {| s_userId := userId; createdAt := t1; lastActivity := t2;
       prayerCount := 0; lastPrayerReset := t3 |} in
  (sessionId, <[sessionId := sessionData]> sessions).

Definition touch (t : Z) (session : sessionData) : sessionData :=
  {| s_userId := s_userId session; createdAt := createdAt session;
     lastActivity := t; prayerCount := prayerCount session;
     lastPrayerReset := lastPrayerReset session |}.

(** [getSession]; [tCheck] is the clock value of the expiry test and
    [tTouch] the one stored as the new [lastActivity]. *)
Definition getSession (tCheck tTouch : Z)
    (sessions : gmap (list N) sessionData) (sessionId : jsstring)
  : option sessionData * gmap (list N) sessionData :=
  match sessions !! sessionId with
  | None => (None, sessions)
  | Some session =>
    if sessionTimeout <? tCheck - lastActivity session
    then (None, delete sessionId sessions)
    else
      let session := touch tTouch session in
      (Some session, <[sessionId := session]> sessions)
  end.

(** The 24-hour reset of the prayer counter, done by both methods below. *)
Definition resetPrayers (now : Z) (session : sessionData) : sessionData :=
  {| s_userId := s_userId session; createdAt := createdAt session;
     lastActivity := lastActivity session; prayerCount := 0;
     lastPrayerReset := now |}.

Definition countPrayer (session : sessionData) : sessionData :=
  {| s_userId := s_userId session; createdAt := createdAt session;
     lastActivity := lastActivity session;
     prayerCount := prayerCount session + 1;
     lastPrayerReset := lastPrayerReset session |}.

(** [updatePrayerCount]; [now] is the clock value read after [getSession]. *)
Definition updatePrayerCount (tCheck tTouch now : Z)
    (sessions : gmap (list N) sessionData) (sessionId : jsstring)
  : Z * gmap (list N) sessionData :=
  match getSession tCheck tTouch sessions sessionId with
  | (Some session, sessions) =>
    let session :=
      if 24 * 60 * 60 * 1000 <? now - lastPrayerReset session
      then resetPrayers now session else session in
    let session := countPrayer session in
    (prayerCount session, <[sessionId := session]> sessions)
  | (None, sessions) => (0, sessions)
  end.

Definition getRemainingPrayers (tCheck tTouch now : Z)
    (sessions : gmap (list N) sessionData) (sessionId : jsstring)
  : Z * gmap (list N) sessionData :=
  match getSession tCheck tTouch sessions sessionId with
  | (None, sessions) => (3, sessions)
  | (Some session, sessions) =>
    if 24 * 60 * 60 * 1000 <? now - lastPrayerReset session
    then (3, <[sessionId := resetPrayers now session]> sessions)
    else (Z.max 0 (3 - prayerCount session), sessions)
  end.

(** [cleanupExpiredSessions] *)
Definition cleanupExpiredSessions (now : Z)
    (sessions : gmap (list N) sessionData) : gmap (list N) sessionData :=
  filter (λ entry : list N * sessionData,
            ¬ (sessionTimeout < now - lastActivity entry.2))
         sessions.

(** A store with one session, created at time 0. *)
Definition oneSession : gmap (list N) sessionData :=
  (createSession (js "3f9a") 0 0 0 ∅ (js "user_1")).2.

(** * Properties *)

Example js_xiaoge : js "小哥" = [0x5C0F; 0x54E5]%N.
Proof. reflexivity. Qed.

Example js_emoji : js "😀" = [0xD83D; 0xDE00]%N.
Proof. reflexivity. Qed.

Example mention_pangzi :
  getMentionedSpeakers (js "王胖子在吗") = [js "王胖子"].
Proof. vm_compute. reflexivity. Qed.

(** ** Strings *)

Lemma startsWith_spec (s k : jsstring) :
  startsWith s k = true ↔ ∃ post, s = k ++ post.
Proof.
  revert s. induction k as [|c k IH]; intros s; simpl.
  - split; [intros _; by exists s | done].
  - destruct s as [|d s].
    + split; [done | intros [post H]; discriminate].
    + rewrite andb_true_iff, N.eqb_eq, IH. split.
      * intros [-> [post ->]]. eauto.
      * intros [post H]. injection H as -> ->. eauto.
Qed.

Lemma includes_spec (s k : jsstring) :
  includes s k = true ↔ substring k s.
Proof.
  unfold substring. induction s as [|d s IH].
  - simpl. rewrite orb_false_r, startsWith_spec. split.
    + intros [post H]. exists [], post. done.
    + intros (pre & post & H). destruct pre; simpl in H.
      * eauto.
      * discriminate.
  - cbn [includes]. rewrite orb_true_iff, startsWith_spec, IH. split.
    + intros [[post H] | (pre & post & H)].
      * exists [], post. done.
      * exists (d :: pre), post. by rewrite H.
    + intros (pre & post & H). destruct pre as [|e pre]; simpl in H.
      * left. eauto.
      * right. injection H as -> ->. eauto.
Qed.

Lemma anyIncluded_spec (message : jsstring) (keywords : list jsstring) :
  anyIncluded message keywords = true ↔
  ∃ keyword, keyword ∈ keywords ∧ substring keyword message.
Proof.
  induction keywords as [|k ks IH]; simpl.
  - split; [done | intros (k & Hk & _); by apply elem_of_nil in Hk].
  - destruct (includes message k) eqn:E.
    + split; [intros _ | done]. exists k. split; [left | by apply includes_spec].
    + rewrite IH. split.
      * intros (k' & Hk' & Hs). exists k'. split; [by right | done].
      * intros (k' & Hk' & Hs). apply elem_of_cons in Hk' as [-> | Hk'].
        -- apply includes_spec in Hs. congruence.
        -- eauto.
Qed.

(** ** The context store *)

Lemma getUserContext_fst cs userId character :
  (getUserContext cs userId character).1 = contextOf cs userId character.
Proof.
  unfold getUserContext, contextOf, lookupContext. simpl.
  destruct (cs !! userId) as [ucs|] eqn:E; simpl.
  - rewrite E. simpl. destruct (ucs !! character) eqn:E'; simpl.
    + by rewrite E'.
    + by rewrite lookup_insert_eq.
  - rewrite lookup_insert_eq. simpl. rewrite lookup_empty.
    by rewrite lookup_insert_eq.
Qed.

Lemma getUserContext_lookup cs userId character :
  lookupContext (getUserContext cs userId character).2 userId character
  = Some (contextOf cs userId character).
Proof.
  unfold getUserContext, contextOf, lookupContext. simpl.
  rewrite lookup_insert_eq. simpl.
  destruct (cs !! userId) as [ucs|] eqn:E; simpl.
  - rewrite E. simpl. destruct (ucs !! character) eqn:E'; simpl.
    + by rewrite E'.
    + by rewrite lookup_insert_eq.
  - rewrite lookup_insert_eq. simpl. rewrite lookup_empty.
    by rewrite lookup_insert_eq.
Qed.

Lemma getUserContext_lookup_ne cs userId character userId' character' :
  (userId, character) ≠ (userId', character') →
  lookupContext (getUserContext cs userId character).2 userId' character'
  = lookupContext cs userId' character'.
Proof.
  intros Hne. unfold getUserContext, lookupContext. simpl.
  destruct (decide (userId = userId')) as [<-|Hu].
  - rewrite lookup_insert_eq. simpl.
    assert (character ≠ character') as Hc by congruence.
    destruct (cs !! userId) as [ucs|] eqn:E; simpl.
    + rewrite E. simpl. destruct (ucs !! character) eqn:E'; simpl; [done|].
      by rewrite lookup_insert_ne.
    + rewrite lookup_insert_eq. simpl. rewrite lookup_empty.
      by rewrite lookup_insert_ne.
  - rewrite lookup_insert_ne by done.
    destruct (cs !! userId) as [ucs|] eqn:E; simpl; [done|].
    by rewrite lookup_insert_ne.
Qed.

Lemma sliceLast_length {A} (n : nat) (l : list A) :
  length (sliceLast n l) = (length l `min` n)%nat.
Proof. unfold sliceLast. rewrite length_drop. lia. Qed.

(** ** Continuity engine *)

Lemma firstIncluded_elem (message : jsstring) ts t :
  firstIncluded message ts = Some t → t ∈ ts.
Proof.
  induction ts as [|t' ts IH]; simpl; [done|].
  destruct (includes message t').
  - intros [= ->]. left.
  - intros H. right. auto.
Qed.

Lemma topics_nonempty t : t ∈ topics → t ≠ [].
Proof.
  assert (Forall (λ t : list N, t ≠ []) topics) as H.
  { unfold topics. repeat constructor; by vm_compute. }
  rewrite Forall_forall in H. apply H.
Qed.

Lemma extractTopic_truthy message :
  truthy (extractTopic message) = bool_decide (is_Some (extractTopic message)).
Proof.
  destruct (extractTopic message) as [t|] eqn:E; [|done].
  apply firstIncluded_elem, topics_nonempty in E.
  destruct t; [done|]. reflexivity.
Qed.

Lemma sameTopic_extract message stored :
  sameTopic (extractTopic message) stored = true ↔
  ∃ t, extractTopic message = Some t ∧ stored = Some t.
Proof.
  unfold sameTopic. rewrite !andb_true_iff, bool_decide_eq_true. split.
  - intros [[H1 H2] <-]. destruct (extractTopic message) as [t|]; [eauto | done].
  - intros (t & E & ->). rewrite <- E. rewrite extractTopic_truthy, E.
    split; [split|]; try done.
Qed.

Lemma isConversationContinuation_spec (currentMessage lastMessage : jsstring) :
  isConversationContinuation currentMessage lastMessage = true ↔
  (length currentMessage ≤ 5)%nat
  ∨ (∃ indicator, indicator ∈ continuationIndicators
                  ∧ substring indicator currentMessage)
  ∨ substring (js "?") lastMessage
  ∨ substring (js "？") lastMessage.
Proof.
  unfold isConversationContinuation.
  rewrite <- anyIncluded_spec, <- !includes_spec.
  destruct (length currentMessage <=? 5)%nat eqn:E1.
  { apply Nat.leb_le in E1. split; auto. }
  apply Nat.leb_gt in E1.
  destruct (anyIncluded currentMessage continuationIndicators).
  { split; auto. }
  destruct (includes lastMessage (js "?")); simpl.
  { split; auto. }
  destruct (includes lastMessage (js "？")); simpl.
  { split; auto. }
  split; [done|]. intros [H | [H | [H | H]]]; try done. lia.
Qed.

Lemma shouldContinue_fst cs userId character userMessage :
  (shouldContinueWithSameSpeaker cs userId character userMessage).1 =
  let ctx := contextOf cs userId character in
  if messageCount ctx <? 2 then false
  else if (0 <? length (getMentionedSpeakers userMessage))%nat then false
  else if sameTopic (extractTopic userMessage) (topic ctx) then true
  else isConversationContinuation userMessage (lastUserMessage ctx).
Proof.
  unfold shouldContinueWithSameSpeaker.
  rewrite <- getUserContext_fst.
  destruct (getUserContext cs userId character) as [ctx cs']. simpl.
  repeat case_match; done.
Qed.

(** C6: a context with fewer than two processed messages never continues
    with the same speaker, whatever the message. *)
Theorem shouldContinue_false_before_second_message
    (cs : contexts) (userId character userMessage : jsstring) :
  messageCount (contextOf cs userId character) < 2 →
  (shouldContinueWithSameSpeaker cs userId character userMessage).1 = false.
Proof.
  intros H. rewrite shouldContinue_fst. simpl.
  apply Z.ltb_lt in H. by rewrite H.
Qed.

Lemma shouldContinue_false_before_second_message_witness :
  (shouldContinueWithSameSpeaker ∅ (js "user_1") (js "铁三角") (js "然后呢")).1
  = false.
Proof.
  apply shouldContinue_false_before_second_message. vm_compute. reflexivity.
Defined.

(** C7: once two messages have been processed, a message that mentions any
    persona forces reselection, also when it names the current speaker. *)
Theorem shouldContinue_false_on_mention
    (cs : contexts) (userId character userMessage : jsstring) :
  2 ≤ messageCount (contextOf cs userId character) →
  getMentionedSpeakers userMessage ≠ [] →
  (shouldContinueWithSameSpeaker cs userId character userMessage).1 = false.
Proof.
  intros Hc Hm. rewrite shouldContinue_fst. simpl.
  destruct (messageCount _ <? 2); [done|].
  destruct (getMentionedSpeakers userMessage); [done|]. done.
Qed.

Lemma shouldContinue_false_on_mention_witness :
  currentSpeaker (contextOf talkingToPangzi (js "user_1") (js "铁三角"))
    = Some (js "王胖子")
  ∧ getMentionedSpeakers (js "王胖子在吗") = [js "王胖子"]
  ∧ (shouldContinueWithSameSpeaker talkingToPangzi (js "user_1") (js "铁三角")
       (js "王胖子在吗")).1 = false.
Proof.
  split; [vm_compute; reflexivity|].
  split; [vm_compute; reflexivity|].
  apply shouldContinue_false_on_mention.
  - vm_compute. discriminate.
  - vm_compute. discriminate.
Defined.

(** C2 as stated fails: the previous user message contains a question mark
    but does not end with one, the new message is longer than five code
    units and has no indicator, mention or topic, and the engine still
    continues with the same speaker. *)
Lemma shouldContinue_question_not_at_end :
  let ctx := contextOf askedMidSentence (js "user_1") (js "铁三角") in
  let userMessage := js "今天的天气非常好" in
  2 ≤ messageCount ctx
  ∧ getMentionedSpeakers userMessage = []
  ∧ ¬ (∃ t, extractTopic userMessage = Some t ∧ topic ctx = Some t)
  ∧ (shouldContinueWithSameSpeaker askedMidSentence (js "user_1")
       (js "铁三角") userMessage).1 = true
  ∧ ¬ ((length userMessage ≤ 5)%nat
       ∨ (∃ indicator, indicator ∈ continuationIndicators
                       ∧ substring indicator userMessage)
       ∨ endsWith (lastUserMessage ctx) (js "?") = true
       ∨ endsWith (lastUserMessage ctx) (js "？") = true).
Proof.
  intros ctx userMessage.
  split; [vm_compute; discriminate|].
  split; [vm_compute; reflexivity|].
  split; [intros (t & H & _); vm_compute in H; discriminate|].
  split; [vm_compute; reflexivity|].
  rewrite <- anyIncluded_spec.
  intros [H | [H | [H | H]]]; vm_compute in H; first [lia | discriminate].
Qed.

(** C2 (amended): past the message-count, mention and topic tests the
    engine continues exactly when the message has at most five code units,
    or contains a continuation indicator, or the previous user message
    contains a question mark, ASCII or full-width, at any position. *)
Theorem shouldContinue_heuristics
    (cs : contexts) (userId character userMessage : jsstring) :
  let ctx := contextOf cs userId character in
  2 ≤ messageCount ctx →
  getMentionedSpeakers userMessage = [] →
  ¬ (∃ t, extractTopic userMessage = Some t ∧ topic ctx = Some t) →
  (shouldContinueWithSameSpeaker cs userId character userMessage).1 = true ↔
  (length userMessage ≤ 5)%nat
  ∨ (∃ indicator, indicator ∈ continuationIndicators
                  ∧ substring indicator userMessage)
  ∨ substring (js "?") (lastUserMessage ctx)
  ∨ substring (js "？") (lastUserMessage ctx).
Proof.
  intros ctx Hc Hm Ht. rewrite shouldContinue_fst. fold ctx. cbv zeta.
  apply Z.ltb_ge in Hc. rewrite Hc, Hm. simpl.
  destruct (sameTopic _ _) eqn:E.
  { apply sameTopic_extract in E. contradiction. }
  apply isConversationContinuation_spec.
Qed.

Lemma shouldContinue_heuristics_witness :
  (shouldContinueWithSameSpeaker askedMidSentence (js "user_1") (js "铁三角")
     (js "今天的天气非常好")).1 = true ↔
  (length (js "今天的天气非常好") ≤ 5)%nat
  ∨ (∃ indicator, indicator ∈ continuationIndicators
                  ∧ substring indicator (js "今天的天气非常好"))
  ∨ substring (js "?")
      (lastUserMessage (contextOf askedMidSentence (js "user_1") (js "铁三角")))
  ∨ substring (js "？")
      (lastUserMessage (contextOf askedMidSentence (js "user_1") (js "铁三角"))).
Proof.
  apply (shouldContinue_heuristics askedMidSentence (js "user_1")
           (js "铁三角") (js "今天的天气非常好")).
  - vm_compute. discriminate.
  - vm_compute. reflexivity.
  - intros (t & H & _). vm_compute in H. discriminate.
Defined.

(** ** Mention short-circuit *)

Lemma filter_none_members (members pre : list jsstring) :
  (∀ x, x ∈ pre → x ∉ members) →
  List.filter (λ speaker, bool_decide (speaker ∈ members)) pre = [].
Proof.
  induction pre as [|x pre IH]; intros H; simpl; [done|].
  rewrite bool_decide_eq_false_2 by (apply H; left).
  apply IH. intros y Hy. apply H. by right.
Qed.

(** C1: when some mentioned persona is a member of the group, the selector
    returns the first such persona in the order of [getMentionedSpeakers],
    for every history, every random draw and every lower-casing function;
    no score is consulted. *)
Theorem selectSpeaker_mention_first
    (toLowerCase : jsstring → jsstring) (u : Q)
    (character message : jsstring) (conversationHistory : list chat_message)
    (group : groupConfig) (pre post : list jsstring) (P : jsstring) :
  prop groupConfigs character = Some group →
  getMentionedSpeakers message = pre ++ P :: post →
  P ∈ members group →
  (∀ x, x ∈ pre → x ∉ members group) →
  selectSpeakerByContext toLowerCase u character message conversationHistory
  = Returns (Some P).
Proof.
  intros Hg Hm HP Hpre. unfold selectSpeakerByContext. rewrite Hg, Hm.
  rewrite length_app. simpl.
  replace (0 <? length pre + S (length post))%nat with true
    by (symmetry; apply Nat.ltb_lt; lia).
  rewrite List.filter_app, filter_none_members by done. simpl.
  by rewrite bool_decide_eq_true_2.
Qed.

Lemma selectSpeaker_mention_first_witness :
  selectSpeakerByContext (λ s, s) (1 # 2) (js "铁三角") (js "小哥和胖子都在吗") []
  = Returns (Some (js "张起灵")).
Proof.
  apply (selectSpeaker_mention_first _ _ _ _ _
           {| members := [js "王胖子"; js "吴邪"; js "张起灵"];
              memberDetails :=
                [(js "王胖子", 150); (js "吴邪", 200); (js "张起灵", 30)] |}
           [] [js "王胖子"]).
  - vm_compute. reflexivity.
  - vm_compute. reflexivity.
  - simpl. rewrite !elem_of_cons. right. right. by left.
  - intros x Hx. by apply elem_of_nil in Hx.
Defined.

(** ** The bounded speaker history *)

Lemma sliceLast_app_sliceLast {A} (n : nat) (a b : list A) :
  sliceLast n (sliceLast n a ++ b) = sliceLast n (a ++ b).
Proof.
  unfold sliceLast. rewrite !length_app, length_drop.
  destruct (decide (length a ≤ n)%nat) as [Hle|Hgt].
  - replace (length a - n)%nat with 0%nat by lia. by rewrite drop_0, Nat.sub_0_r.
  - assert (a ++ b = take (length a - n) a ++ (drop (length a - n) a ++ b))
      as -> by (by rewrite (assoc_L (++)), take_drop).
    rewrite (drop_app_ge (take _ a)) by (rewrite length_take; lia).
    rewrite length_take. f_equal. lia.
Qed.

Lemma lookupContext_putContext cs userId character ctx :
  lookupContext (putContext cs userId character ctx) userId character
  = Some ctx.
Proof.
  unfold lookupContext, putContext. rewrite lookup_insert_eq. simpl.
  by rewrite lookup_insert_eq.
Qed.

Lemma lookupContext_putContext_ne cs userId character ctx userId' character' :
  (userId, character) ≠ (userId', character') →
  lookupContext (putContext cs userId character ctx) userId' character'
  = lookupContext cs userId' character'.
Proof.
  intros Hne. unfold lookupContext, putContext.
  destruct (decide (userId = userId')) as [<-|Hu].
  - rewrite lookup_insert_eq. simpl.
    rewrite lookup_insert_ne by congruence.
    by destruct (cs !! userId).
  - by rewrite lookup_insert_ne.
Qed.

(** What [updateContext] leaves at the key it is called on. *)
Lemma contextOf_updateContext now cs userId character speaker userMessage :
  contextOf (updateContext now cs userId character speaker userMessage)
    userId character
  = let ctx := contextOf cs userId character in
    let pushed :=
      speakerHistory ctx ++
      [ {| h_speaker := speaker; h_timestamp := now;
           h_message := userMessage |} ] in
    {| currentSpeaker := Some speaker;
       topic := extractTopic userMessage;
       lastUserMessage := userMessage;
       messageCount := messageCount ctx + 1;
       speakerHistory :=
         if (10 <? length pushed)%nat then sliceLast 10 pushed else pushed |}.
Proof.
  pose proof (getUserContext_fst cs userId character) as Hctx.
  unfold updateContext.
  destruct (getUserContext cs userId character) as [ctx cs'].
  simpl in Hctx. subst ctx. cbv beta iota zeta.
  unfold contextOf at 1. by rewrite lookupContext_putContext.
Qed.

Lemma contextOf_updateContext_ne now cs userId character speaker userMessage
    userId' character' :
  (userId, character) ≠ (userId', character') →
  contextOf (updateContext now cs userId character speaker userMessage)
    userId' character'
  = contextOf cs userId' character'.
Proof.
  intros Hne. unfold updateContext.
  pose proof (getUserContext_lookup_ne cs _ _ _ _ Hne) as H.
  destruct (getUserContext cs userId character) as [ctx cs'].
  cbv beta iota zeta.
  unfold contextOf. rewrite lookupContext_putContext_ne by done.
  simpl in H. by rewrite H.
Qed.

Lemma kept_is_sliceLast {A} (l : list A) :
  (if (10 <? length l)%nat then sliceLast 10 l else l) = sliceLast 10 l.
Proof.
  destruct (10 <? length l)%nat eqn:E; [done|].
  apply Nat.ltb_ge in E. unfold sliceLast.
  replace (length l - 10)%nat with 0%nat by lia. by rewrite drop_0.
Qed.

Lemma runUpdates_snoc cs calls c :
  runUpdates cs (calls ++ [c]) = applyUpdate (runUpdates cs calls) c.
Proof. unfold runUpdates. by rewrite foldl_app. Qed.

Lemma entriesFor_snoc userId character calls c :
  entriesFor userId character (calls ++ [c]) =
  entriesFor userId character calls ++
  (if bool_decide ((c_userId c, c_character c) = (userId, character))
   then [entryOf c] else []).
Proof.
  unfold entriesFor. rewrite List.filter_app, map_app. simpl.
  by destruct (bool_decide _).
Qed.

(** C5: along any sequence of [updateContext] calls, on any keys, the
    history of a context that started within the bound is the last ten of
    the entries appended to it so far, in append order; in particular it
    never holds more than ten entries. *)
Theorem speakerHistory_last_ten
    (cs : contexts) (calls : list updateCall) (userId character : jsstring) :
  let before := speakerHistory (contextOf cs userId character) in
  let after :=
    speakerHistory (contextOf (runUpdates cs calls) userId character) in
  (length before ≤ 10)%nat →
  after = sliceLast 10 (before ++ entriesFor userId character calls)
  ∧ (length after ≤ 10)%nat.
Proof.
  intros before after Hb. subst after.
  assert (speakerHistory (contextOf (runUpdates cs calls) userId character)
          = sliceLast 10 (before ++ entriesFor userId character calls)) as ->.
  2: { split; [done|]. rewrite sliceLast_length. lia. }
  induction calls as [|c calls IH] using rev_ind.
  - simpl. rewrite app_nil_r. fold before. unfold sliceLast.
    replace (length before - 10)%nat with 0%nat by lia. by rewrite drop_0.
  - rewrite runUpdates_snoc, entriesFor_snoc. unfold applyUpdate.
    case_bool_decide as Hk.
    + injection Hk as -> ->. rewrite contextOf_updateContext. cbv zeta.
      cbn [speakerHistory]. rewrite kept_is_sliceLast, IH.
      rewrite sliceLast_app_sliceLast. by rewrite <- (assoc_L (++)).
    + rewrite contextOf_updateContext_ne by done.
      by rewrite IH, app_nil_r.
Qed.

Lemma speakerHistory_last_ten_witness :
  let after :=
    speakerHistory
      (contextOf (runUpdates ∅ twelveTurns) (js "user_1") (js "铁三角")) in
  after = sliceLast 10
            (speakerHistory (contextOf ∅ (js "user_1") (js "铁三角"))
             ++ entriesFor (js "user_1") (js "铁三角") twelveTurns)
  ∧ (length after ≤ 10)%nat.
Proof.
  apply (speakerHistory_last_ten ∅ twelveTurns (js "user_1") (js "铁三角")).
  vm_compute. lia.
Defined.

Example twelveTurns_timestamps :
  map h_timestamp
    (speakerHistory
       (contextOf (runUpdates ∅ twelveTurns) (js "user_1") (js "铁三角")))
  = [2; 3; 4; 5; 6; 7; 8; 9; 10; 11].
Proof. vm_compute. reflexivity. Qed.

(** ** Reply normaliser *)

Lemma trimStart_length (s : jsstring) : (length (trimStart s) ≤ length s)%nat.
Proof.
  induction s as [|c s IH]; simpl; [lia|].
  destruct (isWhiteSpace c); simpl; lia.
Qed.

Lemma trim_length (s : jsstring) : (length (trim s) ≤ length s)%nat.
Proof.
  unfold trim, trimEnd. rewrite length_reverse.
  etrans; [apply trimStart_length|]. rewrite length_reverse.
  apply trimStart_length.
Qed.

Lemma js_dots : js "..." = [46; 46; 46]%N.
Proof. reflexivity. Qed.

Lemma truncate20_length (s : jsstring) : (length (truncate20 s) ≤ 23)%nat.
Proof.
  unfold truncate20. destruct (20 <? length s)%nat eqn:E.
  - rewrite length_app, length_take, js_dots. cbn [length]. lia.
  - apply Nat.ltb_ge in E. lia.
Qed.

Lemma trimStart_app_dots (s : jsstring) :
  trimStart (s ++ js "...") = trimStart s ++ js "...".
Proof.
  rewrite js_dots. induction s as [|c s IH]; simpl; [done|].
  by destruct (isWhiteSpace c).
Qed.

Lemma trimEnd_app_dots (s : jsstring) :
  trimEnd (s ++ js "...") = s ++ js "...".
Proof.
  unfold trimEnd. rewrite js_dots, reverse_app. simpl.
  change (reverse [46; 46; 46]%N) with [46; 46; 46]%N. simpl.
  rewrite reverse_cons, reverse_cons, reverse_cons, reverse_involutive.
  by rewrite <- !(assoc_L (++)).
Qed.

Lemma trim_app_dots (s : jsstring) :
  trim (s ++ js "...") = trimStart s ++ js "...".
Proof. unfold trim. by rewrite trimStart_app_dots, trimEnd_app_dots. Qed.

Lemma zhangqiling_is_terse : bool_decide (js "张起灵" = js "张起灵") = true.
Proof. by apply bool_decide_eq_true_2. Qed.

Lemma truncated_within_guard (reply : jsstring) :
  (25 <? length (truncate20 (stripEmoji reply)))%nat = false.
Proof.
  pose proof (truncate20_length (stripEmoji reply)). apply Nat.ltb_ge. lia.
Qed.

(** For 张起灵 the normaliser is emoji stripping, truncation and [trim]. *)
Lemma enforce_terse_eq (u : Q) (reply : jsstring) :
  enforceCharacterConsistency u reply (js "张起灵")
  = Returns (trim (truncate20 (stripEmoji reply))).
Proof.
  unfold enforceCharacterConsistency. rewrite zhangqiling_is_terse.
  by rewrite truncated_within_guard.
Qed.

(** C10: for 张起灵 the truncated reply has at most 23 code units, so the
    test [reply.length > 25] never holds: whatever the random draw, the
    result is the trimmed truncation and no stock phrase is drawn. *)
Theorem enforce_terse_stock_branch_dead (u : Q) (reply : jsstring) :
  let truncated := truncate20 (stripEmoji reply) in
  (25 <? length truncated)%nat = false
  ∧ enforceCharacterConsistency u reply (js "张起灵")
    = Returns (trim truncated)
  ∧ (length (trim truncated) ≤ 23)%nat.
Proof.
  intros truncated. split; [apply truncated_within_guard|].
  split; [apply enforce_terse_eq|].
  etrans; [apply trim_length | apply truncate20_length].
Qed.

(** C4 as stated fails on the input it names: the result has 23 code
    units, which is more than 21, and is not a stock phrase. *)
Lemma terse_long_reply_has_23_units :
  let reply :=
    js "😀这是一个测试的超长句子完全超过限制长度看看会不会正确截断处理" in
  ∃ result,
    (25 < length (stripEmoji reply))%nat
    ∧ enforceCharacterConsistency (1 # 2) reply (js "张起灵") = Returns result
    ∧ length result = 23%nat
    ∧ ¬ (((length result ≤ 21)%nat
          ∧ ∃ ellipsis, result = take 20 (stripEmoji reply) ++ ellipsis)
         ∨ result ∈ shortReplies).
Proof.
  intros reply.
  exists (js "这是一个测试的超长句子完全超过限制长度看...").
  split; [vm_compute; lia|].
  split; [vm_compute; reflexivity|].
  split; [vm_compute; reflexivity|].
  intros [[H _] | H].
  - vm_compute in H. lia.
  - apply (bool_decide_pack _) in H. vm_compute in H. exact H.
Qed.

(** C4 (amended): for 张起灵, a reply longer than 25 code units after emoji
    stripping yields its first 20 code units, leading white space removed,
    followed by the three-character [...]: at most 23 code units, never a
    drawn stock phrase. *)
Theorem enforce_terse_long_reply (u : Q) (reply : jsstring) :
  (25 < length (stripEmoji reply))%nat →
  let result := trimStart (take 20 (stripEmoji reply)) ++ js "..." in
  enforceCharacterConsistency u reply (js "张起灵") = Returns result
  ∧ (length result ≤ 23)%nat.
Proof.
  intros Hlong result.
  pose proof (enforce_terse_eq u reply) as Heq.
  assert (length (trim (truncate20 (stripEmoji reply))) ≤ 23)%nat as Hlen
    by (etrans; [apply trim_length | apply truncate20_length]).
  unfold truncate20 in Heq, Hlen.
  replace (20 <? length (stripEmoji reply))%nat with true in Heq, Hlen
    by (symmetry; apply Nat.ltb_lt; lia).
  rewrite trim_app_dots in Heq, Hlen. done.
Qed.

Lemma enforce_terse_long_reply_witness :
  let reply :=
    js "😀这是一个测试的超长句子完全超过限制长度看看会不会正确截断处理" in
  let result := trimStart (take 20 (stripEmoji reply)) ++ js "..." in
  enforceCharacterConsistency (1 # 2) reply (js "张起灵") = Returns result
  ∧ (length result ≤ 23)%nat.
Proof.
  apply (enforce_terse_long_reply (1 # 2)
    (js "😀这是一个测试的超长句子完全超过限制长度看看会不会正确截断处理")).
  vm_compute. lia.
Defined.

(** ** The weighted walk *)

Section Walk.

Variable speakerScores : gmap (list N) Z.
Hypothesis scores_positive :
  ∀ member score, speakerScores !! member = Some score → 1 ≤ score.

Lemma totalScoreOf_nonneg : 0 ≤ totalScoreOf speakerScores.
Proof.
  unfold totalScoreOf. revert scores_positive.
  generalize speakerScores as m.
  apply (map_fold_weak_ind
           (λ r (m : gmap (list N) Z),
              (∀ k s, m !! k = Some s → 1 ≤ s) → 0 ≤ r)).
  - done.
  - intros i x m r Hi IH Hpos.
    assert (1 ≤ x) by (apply (Hpos i); by rewrite lookup_insert_eq).
    assert (0 ≤ r); [|lia].
    apply IH. intros k s Hk. apply (Hpos k).
    rewrite lookup_insert_ne; [done|]. intros ->. congruence.
Qed.

End Walk.

Lemma sumOver_delete_le (m : gmap (list N) Z) (x : jsstring) (l : list jsstring) :
  (∀ k s, m !! k = Some s → 1 ≤ s) →
  sumOver (delete x m) l ≤ sumOver m l.
Proof.
  intros Hpos. induction l as [|k l IH]; simpl; [done|].
  destruct (decide (x = k)) as [->|Hne].
  - rewrite lookup_delete_eq. simpl.
    destruct (m !! k) as [s|] eqn:E; simpl; [|lia].
    apply Hpos in E. lia.
  - rewrite lookup_delete_ne by done. lia.
Qed.

(** The total over the keys is bounded by the scores read along the member
    list, in which a member may occur more than once. *)
Lemma totalScoreOf_le_sumOver (l : list jsstring) (m : gmap (list N) Z) :
  (∀ k s, m !! k = Some s → 1 ≤ s) →
  (∀ k, is_Some (m !! k) → k ∈ l) →
  totalScoreOf m ≤ sumOver m l.
Proof.
  revert m. induction l as [|x l IH]; intros m Hpos Hdom.
  - assert (m = ∅) as ->.
    { apply map_eq. intros k. rewrite lookup_empty.
      destruct (m !! k) eqn:E; [|done].
      exfalso. eapply elem_of_nil, Hdom. eauto. }
    done.
  - simpl. destruct (m !! x) as [s|] eqn:E; simpl.
    + unfold totalScoreOf.
      rewrite (map_fold_delete_L _ _ x s m); [|intros; lia|done].
      fold (totalScoreOf (delete x m)).
      assert (totalScoreOf (delete x m) ≤ sumOver (delete x m) l) as H1.
      { apply IH.
        - intros k s' Hk. apply lookup_delete_Some in Hk as [_ Hk]. eauto.
        - intros k [s' Hk]. apply lookup_delete_Some in Hk as [Hne Hk].
          assert (k ∈ x :: l) as Hin by eauto.
          apply elem_of_cons in Hin as [->|Hin]; done. }
      pose proof (sumOver_delete_le m x l Hpos). lia.
    + assert (totalScoreOf m ≤ sumOver m l); [|lia].
      apply IH; [done|]. intros k Hk.
      assert (k ∈ x :: l) as Hin by eauto.
      apply elem_of_cons in Hin as [->|Hin]; [|done].
      rewrite E in Hk. by destruct Hk.
Qed.

(** A walk over members with positive scores returns before the scores
    read so far exceed the draw. *)
Lemma weightedWalk_below_sum (m : gmap (list N) Z) (l : list jsstring)
    (random : Q) :
  l ≠ [] →
  (∀ member, member ∈ l → ∃ score, m !! member = Some score ∧ 1 ≤ score) →
  (random < inject_Z (sumOver m l))%Q →
  ∃ member, member ∈ l ∧ weightedWalk m l random = Some member.
Proof.
  revert random. induction l as [|x l IH]; intros random Hne Hl Hlt; [done|].
  destruct (Hl x) as (s & Hs & Hpos); [left|].
  cbn [weightedWalk]. rewrite Hs.
  cbn [sumOver foldr] in Hlt. rewrite Hs in Hlt. cbn [default from_option id] in Hlt.
  fold (sumOver m l) in Hlt. rewrite inject_Z_plus in Hlt.
  destruct (Qle_bool (random - inject_Z s) 0) eqn:E.
  { exists x. split; [left | done]. }
  assert (¬ (random - inject_Z s <= 0)%Q) as Hgt.
  { intros H. apply Qle_bool_iff in H. congruence. }
  destruct (IH (random - inject_Z s)%Q) as (member & Hin & Hw).
  - intros ->. change (inject_Z (sumOver m [])) with 0%Q in Hlt. lra.
  - intros member Hin. apply Hl. by right.
  - lra.
  - exists member. split; [by right | done].
Qed.

(** The walk returns a member for every draw below the total. *)
Lemma weightedWalk_total (speakerScores : gmap (list N) Z)
    (members : list jsstring) (random : Q) :
  members ≠ [] →
  (∀ key, is_Some (speakerScores !! key) ↔ key ∈ members) →
  (∀ member score, speakerScores !! member = Some score → 1 ≤ score) →
  (random < inject_Z (totalScoreOf speakerScores))%Q →
  ∃ member, member ∈ members
            ∧ weightedWalk speakerScores members random = Some member.
Proof.
  intros Hne Hkeys Hpos Hlt.
  apply weightedWalk_below_sum; [done| |].
  - intros member Hin. apply Hkeys in Hin as [score Hs]. eauto.
  - eapply Qlt_le_trans; [done|]. rewrite <- Zle_Qle.
    apply totalScoreOf_le_sumOver; [done|]. intros k Hk. by apply Hkeys.
Qed.

Lemma lookup_assignAll_from (f : jsstring → Z) (members : list jsstring)
    (acc : gmap (list N) Z) (k : jsstring) :
  foldl (λ acc member, <[member := f member]> acc) acc members !! k
  = if decide (k ∈ members) then Some (f k) else acc !! k.
Proof.
  revert acc. induction members as [|x members IH]; intros acc; cbn [foldl].
  - rewrite decide_False; [done | apply not_elem_of_nil].
  - rewrite IH. destruct (decide (k ∈ members)) as [Hin|Hnin].
    + rewrite decide_True; [done | by right].
    + destruct (decide (x = k)) as [->|Hne].
      * rewrite lookup_insert_eq. rewrite decide_True; [done | left].
      * rewrite lookup_insert_ne by done.
        rewrite decide_False; [done|].
        intros [->|H]%elem_of_cons; done.
Qed.

Lemma lookup_assignAll (f : jsstring → Z) (members : list jsstring)
    (k : jsstring) :
  assignAll f members !! k = if decide (k ∈ members) then Some (f k) else None.
Proof. unfold assignAll. by rewrite lookup_assignAll_from, lookup_empty. Qed.

Lemma weightedWalk_assignAll (score : jsstring → Z) (members : list jsstring)
    (random : Q) :
  members ≠ [] →
  (∀ member, member ∈ members → 1 ≤ score member) →
  (random < inject_Z (totalScoreOf (assignAll score members)))%Q →
  ∃ member, member ∈ members
            ∧ weightedWalk (assignAll score members) members random
              = Some member.
Proof.
  intros Hne Hpos Hlt. apply weightedWalk_total; [done| | |done].
  - intros key. rewrite lookup_assignAll.
    case_decide; [split; eauto | split; [by intros [? ?] | done]].
  - intros member s. rewrite lookup_assignAll.
    case_decide; [|done]. intros [= <-]. auto.
Qed.

(** C9: for a non-empty member list, scores assigned to the members that
    are all at least 1, and a draw [0 <= random < totalScore], the
    subtraction walk returns a member from inside its loop: it does not
    fall through to the least-recency fallback. *)
Theorem weightedWalk_returns_in_loop (score : jsstring → Z)
    (members : list jsstring) (random : Q) :
  members ≠ [] →
  (∀ member, member ∈ members → 1 ≤ score member) →
  (0 <= random)%Q →
  (random < inject_Z (totalScoreOf (assignAll score members)))%Q →
  ∃ member, member ∈ members
            ∧ weightedWalk (assignAll score members) members random
              = Some member.
Proof.
  intros Hne Hpos _ Hlt.
  apply weightedWalk_below_sum; [done| |].
  - intros member Hin. exists (score member).
    rewrite lookup_assignAll, decide_True by done. auto.
  - eapply Qlt_le_trans; [done|]. rewrite <- Zle_Qle.
    apply totalScoreOf_le_sumOver.
    + intros k s. rewrite lookup_assignAll.
      case_decide; [|done]. intros [= <-]. auto.
    + intros k [s Hk]. rewrite lookup_assignAll in Hk. by case_decide.
Qed.

Lemma weightedWalk_returns_in_loop_witness :
  ∃ member, member ∈ [js "王胖子"; js "吴邪"; js "张起灵"]
    ∧ weightedWalk
        (assignAll (λ _, 2) [js "王胖子"; js "吴邪"; js "张起灵"])
        [js "王胖子"; js "吴邪"; js "张起灵"] (11 # 2)
      = Some member.
Proof.
  apply (weightedWalk_returns_in_loop (λ _, 2)
           [js "王胖子"; js "吴邪"; js "张起灵"] (11 # 2)).
  - discriminate.
  - intros member _. lia.
  - vm_compute. discriminate.
  - vm_compute. reflexivity.
Defined.

Example weightedWalk_last_member :
  weightedWalk (assignAll (λ _, 2) [js "王胖子"; js "吴邪"; js "张起灵"])
    [js "王胖子"; js "吴邪"; js "张起灵"] (11 # 2)
  = Some (js "张起灵").
Proof. vm_compute. reflexivity. Qed.

(** ** Scores *)

Lemma bumpCount_fold (M : jsstring) (l : list jsstring) :
  ∀ (acc : gmap (list N) Z) (n : Z),
    acc !! M = Some n →
    foldl bumpCount acc l !! M = Some (n + Z.of_nat (occurrences M l)).
Proof.
  unfold occurrences.
  induction l as [|x l IH]; intros acc n Hn; cbn [foldl List.filter length].
  - rewrite Hn. f_equal. simpl. lia.
  - destruct (decide (x = M)) as [->|Hne].
    + rewrite bool_decide_eq_true_2 by done. cbn [length].
      rewrite (IH _ (n + 1)).
      * f_equal. lia.
      * unfold bumpCount. rewrite Hn. by rewrite lookup_insert_eq.
    + rewrite bool_decide_eq_false_2 by done. apply IH.
      unfold bumpCount. destruct (acc !! x); [|done].
      by rewrite lookup_insert_ne.
Qed.

Lemma speakerCountOf_member (members recentSpeakers : list jsstring)
    (M : jsstring) :
  M ∈ members →
  speakerCountOf members recentSpeakers !!! M
  = Z.of_nat (occurrences M recentSpeakers).
Proof.
  intros HM. unfold speakerCountOf. rewrite lookup_total_alt.
  rewrite (bumpCount_fold M recentSpeakers _ 0); [simpl; lia|].
  unfold initCount. rewrite lookup_assignAll. by rewrite decide_True.
Qed.

Lemma isNamedBot_name (msg : chat_message) :
  isNamedBot msg = true →
  msg_type msg = js "bot" ∧ ∃ c s, msg_name msg = Some (c :: s).
Proof.
  unfold isNamedBot. rewrite andb_true_iff, bool_decide_eq_true.
  intros [Ht Hn]. split; [done|].
  destruct (msg_name msg) as [[|c s]|]; try done. eauto.
Qed.

Lemma occurrences_named_bots (M : jsstring) (window : list chat_message) :
  M ≠ [] →
  occurrences M
    (map (λ msg, default [] (msg_name msg)) (List.filter isNamedBot window))
  = length
      (List.filter
         (λ msg, bool_decide (msg_type msg = js "bot" ∧ msg_name msg = Some M))
         window).
Proof.
  intros HM. unfold occurrences.
  induction window as [|msg window IH]; [done|].
  cbn [List.filter]. destruct (isNamedBot msg) eqn:E.
  - apply isNamedBot_name in E as (Ht & c & s & Hn).
    cbn [map List.filter]. rewrite Hn. cbn [default from_option id].
    destruct (decide (c :: s = M)) as [<-|Hne].
    + rewrite !bool_decide_eq_true_2 by done. cbn [length]. by rewrite IH.
    + rewrite !bool_decide_eq_false_2; [done | | done].
      intros [_ [=]]. done.
  - rewrite bool_decide_eq_false_2; [done|].
    intros [Ht Hn]. unfold isNamedBot in E.
    rewrite Ht, Hn in E. destruct M; [done|].
    rewrite bool_decide_eq_true_2 in E; done.
Qed.

Lemma recency_count_agrees (members : list jsstring) (M : jsstring)
    (conversationHistory : list chat_message) :
  M ∈ members → M ≠ [] →
  speakerCountOf members (recentSpeakersOf conversationHistory) !!! M
  = recencyCount M conversationHistory.
Proof.
  intros HM Hne. rewrite speakerCountOf_member by done.
  unfold recentSpeakersOf, recencyCount. by rewrite occurrences_named_bots.
Qed.

Lemma last_map {A B} (f : A → B) (l : list A) :
  last (map f l) = f <$> last l.
Proof.
  induction l as [|x [|y l] IH]; [done | done |].
  change (map f (x :: y :: l)) with (f x :: f y :: map f l).
  rewrite !last_cons_cons. apply IH.
Qed.

Lemma elem_of_filter_bool {A} (p : A → bool) (l : list A) (x : A) :
  x ∈ List.filter p l → p x = true.
Proof.
  intros H. apply list_elem_of_In, List.filter_In in H. tauto.
Qed.

Lemma last_speaker_agrees (M : jsstring)
    (conversationHistory : list chat_message) :
  last (recentSpeakersOf conversationHistory) = Some M ↔
  lastBotSpeaker conversationHistory = Some M.
Proof.
  unfold recentSpeakersOf, lastBotSpeaker. rewrite last_map.
  destruct (last _) as [msg|] eqn:E; [|done].
  apply last_Some_elem_of, elem_of_filter_bool, isNamedBot_name in E
    as (_ & c & s & Hn).
  simpl. by rewrite Hn.
Qed.

Lemma keywordFold_count (lower : jsstring → jsstring) (messageLower : jsstring)
    (keywords : list jsstring) :
  Forall (λ keyword, lower keyword = keyword) keywords →
  ∀ score,
    foldl (λ sc keyword,
             if includes messageLower (lower keyword) then sc + 8 else sc)
          score keywords
    = score
      + 8 * Z.of_nat (length (List.filter (λ keyword,
                                             includes messageLower keyword)
                                          keywords)).
Proof.
  induction 1 as [|k ks Hk _ IH]; intros score; cbn [foldl List.filter].
  - simpl. lia.
  - rewrite IH, Hk. destruct (includes messageLower k); cbn [length]; lia.
Qed.

Lemma prop_elem_of {A} (table : list (jsstring * A)) key v :
  prop table key = Some v → (key, v) ∈ table.
Proof.
  induction table as [|[k w] table IH]; simpl; [done|].
  case_decide as Hk.
  - intros [= ->]. subst. left.
  - intros H. right. auto.
Qed.

Lemma keywordScore_hits (toLowerCase : jsstring → jsstring)
    (messageLower M : jsstring) (score : Z) :
  fixesKeywords toLowerCase →
  keywordScore toLowerCase messageLower M score
  = score + 8 * keywordHits messageLower M.
Proof.
  intros Hfix. unfold keywordScore, keywordHits.
  destruct (prop keywordMapping M) as [keywords|] eqn:E; simpl; [|lia].
  apply keywordFold_count.
  apply prop_elem_of in E. unfold fixesKeywords in Hfix.
  rewrite Forall_forall in Hfix. apply (Hfix _ E).
Qed.

Lemma persona_names_distinct :
  js "张起灵" ≠ js "王胖子" ∧ js "张起灵" ≠ js "吴邪" ∧ js "王胖子" ≠ js "吴邪".
Proof. repeat split; vm_compute; discriminate. Qed.

(** The score that the loop body assigns, in closed form. *)
Lemma memberScore_formula (toLowerCase : jsstring → jsstring)
    (members : list jsstring) (M message : jsstring)
    (conversationHistory : list chat_message) :
  fixesKeywords toLowerCase →
  M ∈ members → M ≠ [] →
  memberScore toLowerCase
    (speakerCountOf members (recentSpeakersOf conversationHistory))
    (recentSpeakersOf conversationHistory) (toLowerCase message) M
  = scoreFormula toLowerCase M message conversationHistory.
Proof.
  intros Hfix HM Hne. unfold memberScore, scoreFormula. cbv zeta.
  rewrite recency_count_agrees, keywordScore_hits by done.
  assert (((0 <? length (recentSpeakersOf conversationHistory))%nat
           && bool_decide (last (recentSpeakersOf conversationHistory) = Some M))
          = bool_decide (lastBotSpeaker conversationHistory = Some M)) as ->.
  { rewrite (bool_decide_ext _ _ (last_speaker_agrees M conversationHistory)).
    case_bool_decide as Hl; [|by rewrite andb_false_r].
    apply last_speaker_agrees in Hl.
    destruct (recentSpeakersOf conversationHistory); done. }
  destruct persona_names_distinct as (H1 & H2 & H3).
  unfold personaAdjustment.
  repeat case_bool_decide; subst; simpl; try done; lia.
Qed.

Lemma groupConfigs_members_nonempty character group M :
  prop groupConfigs character = Some group → M ∈ members group → M ≠ [].
Proof.
  intros Hg HM.
  assert (Forall (λ entry : jsstring * groupConfig,
                    Forall (λ m : jsstring, m ≠ []) (members entry.2))
                 groupConfigs) as H.
  { unfold groupConfigs. repeat constructor; by vm_compute. }
  apply prop_elem_of in Hg. rewrite Forall_forall in H.
  specialize (H _ Hg). rewrite Forall_forall in H. by apply H.
Qed.

(** C8: when no group member is mentioned the selector takes the scoring
    path, and there the score of every member M is
    [max(1, (10 - min(recencyCount M, 10)) * 3 + 8 * keywordHits M
            - 5 [M spoke last] + adjustment M)], hence at least 1. *)
Theorem scoring_path_score_formula
    (toLowerCase : jsstring → jsstring) (u : Q)
    (character message : jsstring) (conversationHistory : list chat_message)
    (group : groupConfig) :
  fixesKeywords toLowerCase →
  prop groupConfigs character = Some group →
  (∀ x, x ∈ getMentionedSpeakers message → x ∉ members group) →
  selectSpeakerByContext toLowerCase u character message conversationHistory
  = Returns (scoringPath toLowerCase u (members group) message
               conversationHistory)
  ∧ ∀ M, M ∈ members group →
      scoresOnPath toLowerCase (members group) message conversationHistory !! M
      = Some (scoreFormula toLowerCase M message conversationHistory)
      ∧ 1 ≤ scoreFormula toLowerCase M message conversationHistory.
Proof.
  intros Hfix Hg Hno. split.
  - unfold selectSpeakerByContext. rewrite Hg.
    rewrite filter_none_members by done. by destruct (0 <? _)%nat.
  - intros M HM. split.
    + unfold scoresOnPath, speakerScoresOf. cbv zeta.
      rewrite lookup_assignAll, decide_True by done. f_equal.
      apply memberScore_formula; [done | done |].
      by eapply groupConfigs_members_nonempty.
    + unfold scoreFormula. lia.
Qed.

Lemma scoring_path_score_formula_witness :
  selectSpeakerByContext asciiLower (1 # 2) (js "铁三角") (js "三叔怎么说")
    pangziSpokeLast
  = Returns (scoringPath asciiLower (1 # 2)
               [js "王胖子"; js "吴邪"; js "张起灵"] (js "三叔怎么说")
               pangziSpokeLast)
  ∧ ∀ M, M ∈ [js "王胖子"; js "吴邪"; js "张起灵"] →
      scoresOnPath asciiLower [js "王胖子"; js "吴邪"; js "张起灵"]
        (js "三叔怎么说") pangziSpokeLast !! M
      = Some (scoreFormula asciiLower M (js "三叔怎么说") pangziSpokeLast)
      ∧ 1 ≤ scoreFormula asciiLower M (js "三叔怎么说") pangziSpokeLast.
Proof.
  apply (scoring_path_score_formula asciiLower (1 # 2) (js "铁三角")
           (js "三叔怎么说") pangziSpokeLast
           {| members := [js "王胖子"; js "吴邪"; js "张起灵"];
              memberDetails :=
                [(js "王胖子", 150); (js "吴邪", 200); (js "张起灵", 30)] |}).
  - unfold fixesKeywords, keywordMapping. repeat constructor.
  - vm_compute. reflexivity.
  - intros x Hx. vm_compute in Hx. by apply elem_of_nil in Hx.
Defined.

Example scores_after_pangzi :
  map (λ M, scoresOnPath asciiLower [js "王胖子"; js "吴邪"; js "张起灵"]
              (js "三叔怎么说") pangziSpokeLast !! M)
      [js "王胖子"; js "吴邪"; js "张起灵"]
  = [Some 24; Some 48; Some 27].
Proof. vm_compute. reflexivity. Qed.

(** ** The fallback after the loop is not reached *)

Lemma totalScoreOf_assignAll_pos (score : jsstring → Z)
    (members : list jsstring) :
  members ≠ [] →
  (∀ member, member ∈ members → 1 ≤ score member) →
  1 ≤ totalScoreOf (assignAll score members).
Proof.
  intros Hne Hpos. destruct members as [|x members]; [done|].
  assert (∀ k s, assignAll score (x :: members) !! k = Some s → 1 ≤ s) as Hall.
  { intros k s. rewrite lookup_assignAll. case_decide; [|done].
    intros [= <-]. auto. }
  unfold totalScoreOf.
  rewrite (map_fold_delete_L _ _ x (score x)); [|intros; lia|].
  - fold (totalScoreOf (delete x (assignAll score (x :: members)))).
    assert (1 ≤ score x) by (apply Hpos; left).
    assert (0 ≤ totalScoreOf (delete x (assignAll score (x :: members)))); [|lia].
    apply totalScoreOf_nonneg. intros k s Hk.
    apply lookup_delete_Some in Hk as [_ Hk]. eauto.
  - rewrite lookup_assignAll. rewrite decide_True; [done | left].
Qed.

(** With a draw in [0, 1) the scoring path returns from inside the loop,
    for every group, message and history. *)
Lemma scoringPath_returns_member (toLowerCase : jsstring → jsstring) (u : Q)
    (members : list jsstring) (message : jsstring)
    (conversationHistory : list chat_message) :
  members ≠ [] → (0 <= u)%Q → (u < 1)%Q →
  ∃ member,
    member ∈ members
    ∧ weightedWalk
        (scoresOnPath toLowerCase members message conversationHistory) members
        (u * inject_Z
               (totalScoreOf
                  (scoresOnPath toLowerCase members message
                     conversationHistory)))
      = Some member
    ∧ scoringPath toLowerCase u members message conversationHistory
      = Some member.
Proof.
  intros Hne Hu0 Hu1.
  set (scores := scoresOnPath toLowerCase members message conversationHistory).
  assert (∀ member, member ∈ members →
            1 ≤ memberScore toLowerCase
                  (speakerCountOf members (recentSpeakersOf conversationHistory))
                  (recentSpeakersOf conversationHistory)
                  (toLowerCase message) member) as Hpos.
  { intros member _. unfold memberScore. lia. }
  pose proof (totalScoreOf_assignAll_pos _ members Hne Hpos) as HT.
  fold (speakerScoresOf toLowerCase members
          (speakerCountOf members (recentSpeakersOf conversationHistory))
          (recentSpeakersOf conversationHistory) (toLowerCase message)) in HT.
  fold (scoresOnPath toLowerCase members message conversationHistory) in HT.
  fold scores in HT.
  assert (0 < inject_Z (totalScoreOf scores))%Q as HTq.
  { change 0%Q with (inject_Z 0). rewrite <- Zlt_Qlt. lia. }
  assert (u * inject_Z (totalScoreOf scores)
          < 1 * inject_Z (totalScoreOf scores))%Q as Hlt
    by (by apply Qmult_lt_compat_r).
  rewrite Qmult_1_l in Hlt.
  subst scores. unfold scoresOnPath, speakerScoresOf in *. cbv zeta in *.
  destruct (weightedWalk_assignAll _ members _ Hne Hpos Hlt)
    as (member & Hin & Hw).
  exists member. split; [done|]. split; [done|].
  unfold scoringPath, speakerScoresOf. cbv zeta. by rewrite Hw.
Qed.

(** ** The handler when the completion call fails *)

Lemma shouldContinue_snd cs userId character userMessage :
  (shouldContinueWithSameSpeaker cs userId character userMessage).2
  = (getUserContext cs userId character).2.
Proof.
  unfold shouldContinueWithSameSpeaker.
  by destruct (getUserContext cs userId character).
Qed.

Lemma getUserContext_idem cs userId character :
  getUserContext (getUserContext cs userId character).2 userId character
  = (contextOf cs userId character, (getUserContext cs userId character).2).
Proof.
  pose proof (getUserContext_lookup cs userId character) as Hl.
  set (cs1 := (getUserContext cs userId character).2) in *.
  unfold lookupContext in Hl.
  destruct (cs1 !! userId) as [ucs|] eqn:E; [|done]. simpl in Hl.
  unfold getUserContext. rewrite E. simpl. rewrite E. simpl. rewrite Hl. simpl.
  rewrite Hl. simpl. by rewrite insert_id.
Qed.

Lemma contextOf_getUserContext cs userId character userId' character' :
  contextOf (getUserContext cs userId character).2 userId' character'
  = contextOf cs userId' character'.
Proof.
  unfold contextOf at 1.
  destruct (decide ((userId, character) = (userId', character'))) as [[= <- <-]|Hne].
  - by rewrite getUserContext_lookup.
  - by rewrite getUserContext_lookup_ne.
Qed.

Lemma getContinuationSpeaker_eq cs userId character :
  getContinuationSpeaker (getUserContext cs userId character).2 userId character
  = (currentSpeaker (contextOf cs userId character),
     (getUserContext cs userId character).2).
Proof. unfold getContinuationSpeaker. by rewrite getUserContext_idem. Qed.

Lemma randomPick_elem {A} (u : Q) (l : list A) :
  l ≠ [] → (0 <= u)%Q → (u < 1)%Q →
  ∃ x, randomPick u l = Some x ∧ x ∈ l.
Proof.
  intros Hne Hu0 Hu1. unfold randomPick, index.
  set (n := Z.of_nat (length l)).
  assert (0 < n) as Hn by (destruct l; [done | simpl in n; lia]).
  assert (0 < inject_Z n)%Q as Hnq
    by (change 0%Q with (inject_Z 0); rewrite <- Zlt_Qlt; lia).
  assert (0 ≤ Qfloor (u * inject_Z n)) as Hlo.
  { rewrite <- (Qfloor_Z 0). apply Qfloor_resp_le.
    apply Qmult_le_0_compat; [done|]. by apply Qlt_le_weak. }
  assert (Qfloor (u * inject_Z n) < n) as Hhi.
  { rewrite Zlt_Qlt. eapply Qle_lt_trans; [apply Qfloor_le|].
    rewrite <- (Qmult_1_l (inject_Z n)) at 2.
    by apply Qmult_lt_compat_r. }
  destruct (Z.ltb_spec (Qfloor (u * inject_Z n)) 0) as [?|_]; [lia|].
  destruct (lookup_lt_is_Some_2 l (Z.to_nat (Qfloor (u * inject_Z n))))
    as [x Hx]; [lia|].
  exists x. split; [done|]. by eapply list_elem_of_lookup_2.
Qed.

Lemma speakerFallbacksOf_nonempty speaker : speakerFallbacksOf speaker ≠ [].
Proof.
  unfold speakerFallbacksOf.
  destruct (prop fallbacks speaker) as [l|] eqn:E; simpl; [|done].
  assert (Forall (λ entry : jsstring * list jsstring, entry.2 ≠ []) fallbacks)
    as H by (unfold fallbacks; repeat constructor; done).
  apply prop_elem_of in E. rewrite Forall_forall in H. apply (H _ E).
Qed.

(** The handler up to the request: what it has selected and stored. *)
Lemma handleGroupChatSmart_selected (toLowerCase : jsstring → jsstring)
    (uSelect uEnforce uFallback : Q) (now : Z) (api : apiResult)
    (cs : contexts) (userId character message : jsstring)
    (conversationHistory : list chat_message)
    (group : groupConfig) (selectedSpeaker : jsstring) (maxTokens : Z) :
  prop groupConfigs character = Some group →
  selectTurnSpeaker toLowerCase uSelect cs userId character message
    conversationHistory = Returns (Some selectedSpeaker) →
  prop (memberDetails group) selectedSpeaker = Some maxTokens →
  handleGroupChatSmart toLowerCase uSelect uEnforce uFallback now api cs
    userId character message conversationHistory
  = let cs1 := (getUserContext cs userId character).2 in
    let onError :=
      (Returns {| res_reply := getGroupFallbackResponse uFallback selectedSpeaker;
                  res_speaker := selectedSpeaker;
                  res_fallback := true |}, cs1) in
    match api with
    | ApiReply content =>
      match enforceCharacterConsistency uEnforce (trim content)
              selectedSpeaker with
      | Returns aiReply =>
        (Returns {| res_reply := Some aiReply;
                    res_speaker := selectedSpeaker;
                    res_fallback := false |},
         updateContext now cs1 userId character selectedSpeaker message)
      | Throws => onError
      end
    | ApiError => onError
    end.
Proof.
  intros Hg Hsel Hd. unfold handleGroupChatSmart, selectTurnSpeaker in *.
  pose proof (shouldContinue_snd cs userId character message) as Hs.
  destruct (shouldContinueWithSameSpeaker cs userId character message)
    as [b cs1]. cbn [fst snd] in Hs, Hsel. subst cs1. cbv beta iota.
  destruct b.
  - rewrite getContinuationSpeaker_eq.
    injection Hsel as Hsel. rewrite Hsel, Hg, Hd. done.
  - rewrite Hsel, Hg, Hd. done.
Qed.

(** C3 as stated fails: the completion call fails on a turn that selects
    吴邪, the handler answers with one of 吴邪's stock replies, and the
    stored context still names 王胖子, counts two messages and has an empty
    history. *)
Lemma failed_turn_leaves_context :
  let result :=
    handleGroupChatSmart asciiLower (1 # 2) (1 # 2) (1 # 2) 1000 ApiError
      talkingToPangzi (js "user_1") (js "铁三角") (js "吴邪在吗") [] in
  let before := contextOf talkingToPangzi (js "user_1") (js "铁三角") in
  let after := contextOf result.2 (js "user_1") (js "铁三角") in
  result.1 = Returns {| res_reply := Some (js "三叔要是知道我在聊这个...");
                        res_speaker := js "吴邪";
                        res_fallback := true |}
  ∧ currentSpeaker after ≠ Some (js "吴邪")
  ∧ messageCount after ≠ messageCount before + 1
  ∧ speakerHistory after
    ≠ speakerHistory before
      ++ [ {| h_speaker := js "吴邪"; h_timestamp := 1000;
              h_message := js "吴邪在吗" |} ].
Proof.
  cbv zeta. split; [vm_compute; reflexivity|].
  split; [vm_compute; discriminate|].
  split; [vm_compute; discriminate|].
  vm_compute; discriminate.
Qed.

(** C3 (amended): on a turn whose completion call fails, the handler does
    not propagate the error: it responds with one of the stock fallback
    strings of the speaker it had selected, flagged as fallback.  It makes
    no context update: every context reads as before the turn. *)
Theorem failed_turn_falls_back_without_update
    (toLowerCase : jsstring → jsstring) (uSelect uEnforce uFallback : Q)
    (now : Z) (cs : contexts) (userId character message : jsstring)
    (conversationHistory : list chat_message)
    (group : groupConfig) (selectedSpeaker : jsstring) :
  prop groupConfigs character = Some group →
  selectTurnSpeaker toLowerCase uSelect cs userId character message
    conversationHistory = Returns (Some selectedSpeaker) →
  is_Some (prop (memberDetails group) selectedSpeaker) →
  (0 <= uFallback)%Q → (uFallback < 1)%Q →
  ∃ reply cs',
    handleGroupChatSmart toLowerCase uSelect uEnforce uFallback now ApiError
      cs userId character message conversationHistory
    = (Returns {| res_reply := Some reply;
                  res_speaker := selectedSpeaker;
                  res_fallback := true |}, cs')
    ∧ reply ∈ speakerFallbacksOf selectedSpeaker
    ∧ ∀ userId' character',
        contextOf cs' userId' character' = contextOf cs userId' character'.
Proof.
  intros Hg Hsel [maxTokens Hd] Hu0 Hu1.
  destruct (randomPick_elem uFallback (speakerFallbacksOf selectedSpeaker))
    as (reply & Hpick & Hin); [apply speakerFallbacksOf_nonempty | done | done |].
  exists reply, (getUserContext cs userId character).2.
  split; [|split; [done|]].
  - rewrite (handleGroupChatSmart_selected _ _ _ _ _ _ _ _ _ _ _ _ _ _ Hg Hsel Hd).
    cbv zeta. unfold getGroupFallbackResponse. by rewrite Hpick.
  - intros userId' character'. apply contextOf_getUserContext.
Qed.

Lemma failed_turn_falls_back_without_update_witness :
  ∃ reply cs',
    handleGroupChatSmart asciiLower (1 # 2) (1 # 2) (1 # 2) 1000 ApiError
      talkingToPangzi (js "user_1") (js "铁三角") (js "吴邪在吗") []
    = (Returns {| res_reply := Some reply;
                  res_speaker := js "吴邪";
                  res_fallback := true |}, cs')
    ∧ reply ∈ speakerFallbacksOf (js "吴邪")
    ∧ ∀ userId' character',
        contextOf cs' userId' character'
        = contextOf talkingToPangzi userId' character'.
Proof.
  apply (failed_turn_falls_back_without_update asciiLower (1 # 2) (1 # 2)
           (1 # 2) 1000 talkingToPangzi (js "user_1") (js "铁三角")
           (js "吴邪在吗") []
           {| members := [js "王胖子"; js "吴邪"; js "张起灵"];
              memberDetails :=
                [(js "王胖子", 150); (js "吴邪", 200); (js "张起灵", 30)] |}
           (js "吴邪")).
  - vm_compute. reflexivity.
  - vm_compute. reflexivity.
  - exists 200. vm_compute. reflexivity.
  - vm_compute. discriminate.
  - vm_compute. reflexivity.
Defined.

(** On the same turn a successful call does update the context. *)
Example answered_turn_updates_context :
  let result :=
    handleGroupChatSmart asciiLower (1 # 2) (1 # 2) (1 # 2) 1000
      (ApiReply (js " 三叔没说过。 "))
      talkingToPangzi (js "user_1") (js "铁三角") (js "吴邪在吗") [] in
  let after := contextOf result.2 (js "user_1") (js "铁三角") in
  result.1 = Returns {| res_reply := Some (js "三叔没说过。");
                        res_speaker := js "吴邪";
                        res_fallback := false |}
  ∧ currentSpeaker after = Some (js "吴邪")
  ∧ messageCount after = 3
  ∧ speakerHistory after
    = [ {| h_speaker := js "吴邪"; h_timestamp := 1000;
           h_message := js "吴邪在吗" |} ].
Proof. cbv zeta. repeat split; vm_compute; reflexivity. Qed.

(** ** More on topic and mention extraction *)

Lemma firstIncluded_Some (message : jsstring) (ts : list jsstring) (t : jsstring) :
  firstIncluded message ts = Some t ↔
  ∃ pre post, ts = pre ++ t :: post ∧ substring t message
              ∧ ∀ x, x ∈ pre → ¬ substring x message.
Proof.
  induction ts as [|t' ts IH]; simpl.
  - split; [done | intros (pre & post & H & _); by destruct pre].
  - destruct (includes message t') eqn:E.
    + split.
      * intros [= ->]. exists [], ts. split; [done|].
        split; [by apply includes_spec|]. intros x Hx. by apply elem_of_nil in Hx.
      * intros (pre & post & Heq & Hs & Hpre). destruct pre as [|p pre].
        -- by injection Heq as ->.
        -- injection Heq as <- ->. exfalso. apply (Hpre t'); [left|].
           by apply includes_spec.
    + rewrite IH. split.
      * intros (pre & post & -> & Hs & Hpre). exists (t' :: pre), post.
        split; [done|]. split; [done|].
        intros x [->|Hx]%elem_of_cons; [|by apply Hpre].
        rewrite <- includes_spec. congruence.
      * intros (pre & post & Heq & Hs & Hpre). destruct pre as [|p pre].
        -- injection Heq as <- ->. apply includes_spec in Hs. congruence.
        -- injection Heq as <- ->. exists pre, post. split; [done|].
           split; [done|]. intros x Hx. apply Hpre. by right.
Qed.

Lemma firstIncluded_None (message : jsstring) (ts : list jsstring) :
  firstIncluded message ts = None ↔ ∀ x, x ∈ ts → ¬ substring x message.
Proof.
  induction ts as [|t' ts IH]; simpl.
  - split; [|done]. intros _ x Hx. by apply elem_of_nil in Hx.
  - destruct (includes message t') eqn:E.
    + split; [done|]. intros H. exfalso. apply (H t'); [left|].
      by apply includes_spec.
    + rewrite IH. split.
      * intros H x [->|Hx]%elem_of_cons; [|by apply H].
        rewrite <- includes_spec. congruence.
      * intros H x Hx. apply H. by right.
Qed.

(** X1: [extractTopic] returns the first entry of the topic list, in list
    order, that occurs in the message, wherever it occurs; it returns
    [null] exactly when no topic occurs. *)
Theorem extractTopic_first_in_list_order (message : jsstring) :
  (∀ t, extractTopic message = Some t ↔
        ∃ pre post, topics = pre ++ t :: post ∧ substring t message
                    ∧ ∀ x, x ∈ pre → ¬ substring x message)
  ∧ (extractTopic message = None ↔
     ∀ x, x ∈ topics → ¬ substring x message).
Proof.
  split; [intros t; apply firstIncluded_Some | apply firstIncluded_None].
Qed.

Lemma elem_of_mentionedIn (table : list (jsstring * list jsstring))
    (message P : jsstring) :
  P ∈ mentionedIn table message ↔
  ∃ keywords keyword, (P, keywords) ∈ table ∧ keyword ∈ keywords
                      ∧ substring keyword message.
Proof.
  induction table as [|[sp kws] table IH]; simpl.
  - split; [by intros ?%elem_of_nil|].
    intros (? & ? & ?%elem_of_nil & _). done.
  - destruct (anyIncluded message kws) eqn:E.
    + rewrite elem_of_cons, IH. split.
      * intros [->|(keywords & keyword & Hin & Hk & Hs)].
        -- apply anyIncluded_spec in E as (keyword & Hk & Hs).
           exists kws, keyword. split; [left | done].
        -- exists keywords, keyword. split; [by right | done].
      * intros (keywords & keyword & Hin & Hk & Hs).
        apply elem_of_cons in Hin as [[= -> ->]|Hin]; [by left|].
        right. eauto.
    + rewrite IH. split.
      * intros (keywords & keyword & Hin & Hk & Hs).
        exists keywords, keyword. split; [by right | done].
      * intros (keywords & keyword & Hin & Hk & Hs).
        apply elem_of_cons in Hin as [[= -> ->]|Hin]; [|eauto].
        assert (anyIncluded message kws = true) as Hany
          by (apply anyIncluded_spec; eauto).
        congruence.
Qed.

Lemma mentionedIn_sublist (table : list (jsstring * list jsstring))
    (message : jsstring) :
  sublist (mentionedIn table message) (table.*1).
Proof.
  induction table as [|[sp kws] table IH]; simpl; [constructor|].
  destruct (anyIncluded message kws); by constructor.
Qed.

Lemma speakerKeywords_keys_NoDup : NoDup (speakerKeywords.*1).
Proof. apply (bool_decide_unpack _). vm_compute. exact I. Qed.

(** X2: a persona is reported as mentioned exactly when one of its alias
    keywords occurs in the message; each persona is reported at most once,
    and the report keeps the order of the keyword table. *)
Theorem getMentionedSpeakers_spec (message : jsstring) :
  (∀ P, P ∈ getMentionedSpeakers message ↔
        ∃ keywords keyword, (P, keywords) ∈ speakerKeywords
                            ∧ keyword ∈ keywords ∧ substring keyword message)
  ∧ NoDup (getMentionedSpeakers message)
  ∧ sublist (getMentionedSpeakers message) (speakerKeywords.*1).
Proof.
  split; [intros P; apply elem_of_mentionedIn|].
  pose proof (mentionedIn_sublist speakerKeywords message) as Hs.
  split; [|exact Hs].
  exact (sublist_NoDup _ _ speakerKeywords_keys_NoDup Hs).
Qed.

Lemma topics_plain_or_keyword :
  Forall (λ t, t ∈ plainTopics ∨ isMentionKeyword t = true) topics.
Proof.
  assert (forallb (λ t, bool_decide (t ∈ plainTopics) || isMentionKeyword t)
                  topics = true) as H by (vm_compute; reflexivity).
  rewrite forallb_forall in H. apply Forall_forall. intros t Ht.
  apply list_elem_of_In, H, orb_true_iff in Ht as [Ht|Ht]; [left | by right].
  by apply bool_decide_eq_true in Ht.
Qed.

Lemma isMentionKeyword_mentioned (message t : jsstring) :
  isMentionKeyword t = true → substring t message →
  getMentionedSpeakers message ≠ [].
Proof.
  intros Hk Hs. unfold isMentionKeyword in Hk.
  apply existsb_exists in Hk as ([P kws] & Hin & Hk).
  apply bool_decide_eq_true in Hk. simpl in Hk.
  assert (P ∈ getMentionedSpeakers message) as HP.
  { apply elem_of_mentionedIn. exists kws, t.
    split; [by apply list_elem_of_In | done]. }
  intros Hnil. rewrite Hnil in HP. by apply elem_of_nil in HP.
Qed.

(** X3: in a message that mentions no persona, the extracted topic can only
    be one of the nine topics that are not persona names.  The fifteen
    persona-name topics are all mention keywords, and the continuity engine
    tests mentions first, so they never reach its same-topic test. *)
Theorem extractTopic_without_mention (message t : jsstring) :
  getMentionedSpeakers message = [] →
  extractTopic message = Some t →
  t ∈ plainTopics.
Proof.
  intros Hm Ht.
  apply firstIncluded_Some in Ht as (pre & post & Heq & Hs & _).
  pose proof topics_plain_or_keyword as H. rewrite Forall_forall in H.
  destruct (H t) as [Hp|Hk]; [|done|].
  - rewrite Heq. apply elem_of_app. right. left.
  - by destruct (isMentionKeyword_mentioned message t Hk Hs).
Qed.

Lemma extractTopic_without_mention_witness :
  js "线索" ∈ plainTopics.
Proof.
  apply (extractTopic_without_mention (js "那条线索后来怎么样了") (js "线索")).
  - vm_compute. reflexivity.
  - vm_compute. reflexivity.
Defined.

(** ** More on the context store *)

Lemma lookupContext_resetContext cs userId character :
  lookupContext (resetContext cs userId character) userId character = None.
Proof.
  unfold resetContext, lookupContext.
  destruct (cs !! userId) as [ucs|] eqn:E.
  - rewrite lookup_insert_eq. simpl. apply lookup_delete_eq.
  - by rewrite E.
Qed.

Lemma lookupContext_resetContext_ne cs userId character userId' character' :
  (userId, character) ≠ (userId', character') →
  lookupContext (resetContext cs userId character) userId' character'
  = lookupContext cs userId' character'.
Proof.
  intros Hne. unfold resetContext, lookupContext.
  destruct (cs !! userId) as [ucs|] eqn:E; [|done].
  destruct (decide (userId = userId')) as [<-|Hu].
  - rewrite lookup_insert_eq, E. simpl.
    apply lookup_delete_ne. congruence.
  - by rewrite lookup_insert_ne.
Qed.

(** X4: resetting a conversation makes its context read as a fresh one
    (no speaker, no topic, count 0, empty history), so the next continuity
    check reselects; every other conversation is untouched. *)
Theorem resetContext_fresh (cs : contexts) (userId character : jsstring) :
  contextOf (resetContext cs userId character) userId character = newContext
  ∧ (∀ userMessage,
       (shouldContinueWithSameSpeaker (resetContext cs userId character)
          userId character userMessage).1 = false)
  ∧ (∀ userId' character',
       (userId, character) ≠ (userId', character') →
       lookupContext (resetContext cs userId character) userId' character'
       = lookupContext cs userId' character').
Proof.
  assert (contextOf (resetContext cs userId character) userId character
          = newContext) as Hfresh
    by (unfold contextOf; by rewrite lookupContext_resetContext).
  split; [done|]. split.
  - intros userMessage. rewrite shouldContinue_fst, Hfresh. done.
  - intros userId' character'. apply lookupContext_resetContext_ne.
Qed.

Lemma messageCount_updateContext now cs userId character speaker userMessage
    userId' character' :
  messageCount
    (contextOf (updateContext now cs userId character speaker userMessage)
       userId' character')
  = messageCount (contextOf cs userId' character')
    + (if bool_decide ((userId, character) = (userId', character'))
       then 1 else 0).
Proof.
  case_bool_decide as Hk.
  - injection Hk as <- <-. by rewrite contextOf_updateContext.
  - rewrite contextOf_updateContext_ne by done. lia.
Qed.

(** X5: [messageCount] counts the updates of its own conversation: after
    any sequence of [updateContext] calls it has grown by the number of
    calls made on that (user, group) key, whatever was done on other keys. *)
Theorem messageCount_counts_updates
    (cs : contexts) (calls : list updateCall) (userId character : jsstring) :
  messageCount (contextOf (runUpdates cs calls) userId character)
  = messageCount (contextOf cs userId character)
    + Z.of_nat (length (entriesFor userId character calls)).
Proof.
  induction calls as [|c calls IH] using rev_ind.
  - simpl. lia.
  - rewrite runUpdates_snoc, entriesFor_snoc. unfold applyUpdate.
    rewrite messageCount_updateContext, IH, length_app.
    case_bool_decide; simpl; lia.
Qed.

Lemma lastUserMessage_updateContext now cs userId character speaker userMessage :
  let ctx :=
    contextOf (updateContext now cs userId character speaker userMessage)
      userId character in
  currentSpeaker ctx = Some speaker
  ∧ lastUserMessage ctx = userMessage
  ∧ topic ctx = extractTopic userMessage
  ∧ messageCount ctx = messageCount (contextOf cs userId character) + 1.
Proof. cbv zeta. by rewrite contextOf_updateContext. Qed.

(** X6: the continuity decision on the turn after an update depends on the
    previous turn only through its message.  Once at least one message had
    been processed before it, a next message without mention continues
    with the same speaker exactly when it has the same topic as the
    previous message, or is at most five code units long, or contains a
    continuation indicator, or the previous message contains a question
    mark. *)
Theorem shouldContinue_after_update
    (now : Z) (cs : contexts)
    (userId character speaker previous next : jsstring) :
  1 ≤ messageCount (contextOf cs userId character) →
  getMentionedSpeakers next = [] →
  (shouldContinueWithSameSpeaker
     (updateContext now cs userId character speaker previous)
     userId character next).1 = true ↔
  (∃ t, extractTopic next = Some t ∧ extractTopic previous = Some t)
  ∨ (length next ≤ 5)%nat
  ∨ (∃ indicator, indicator ∈ continuationIndicators
                  ∧ substring indicator next)
  ∨ substring (js "?") previous
  ∨ substring (js "？") previous.
Proof.
  intros Hc Hm. rewrite shouldContinue_fst. cbv zeta.
  destruct (lastUserMessage_updateContext now cs userId character speaker
              previous) as (_ & -> & -> & ->).
  replace (messageCount (contextOf cs userId character) + 1 <? 2) with false
    by (symmetry; apply Z.ltb_ge; lia).
  rewrite Hm. simpl.
  destruct (sameTopic _ _) eqn:E.
  - apply sameTopic_extract in E. split; auto.
  - rewrite isConversationContinuation_spec. split; [auto|].
    intros [H|H]; [|done]. apply sameTopic_extract in H. congruence.
Qed.

Lemma shouldContinue_after_update_witness :
  (shouldContinueWithSameSpeaker
     (updateContext 1000 talkingToPangzi (js "user_1") (js "铁三角")
        (js "吴邪") (js "那座古墓里有什么"))
     (js "user_1") (js "铁三角") (js "古墓的入口在哪里呢")).1 = true ↔
  (∃ t, extractTopic (js "古墓的入口在哪里呢") = Some t
        ∧ extractTopic (js "那座古墓里有什么") = Some t)
  ∨ (length (js "古墓的入口在哪里呢") ≤ 5)%nat
  ∨ (∃ indicator, indicator ∈ continuationIndicators
                  ∧ substring indicator (js "古墓的入口在哪里呢"))
  ∨ substring (js "?") (js "那座古墓里有什么")
  ∨ substring (js "？") (js "那座古墓里有什么").
Proof.
  apply (shouldContinue_after_update 1000 talkingToPangzi (js "user_1")
           (js "铁三角") (js "吴邪") (js "那座古墓里有什么")
           (js "古墓的入口在哪里呢")).
  - vm_compute. discriminate.
  - vm_compute. reflexivity.
Defined.

(** X7: the continuity check and [getContinuationSpeaker] only read: after
    them every conversation's context reads as before (the only change to
    the store is the empty context created on a miss). *)
Theorem continuity_check_reads_only
    (cs : contexts) (userId character userMessage : jsstring) :
  ∀ userId' character',
    contextOf (shouldContinueWithSameSpeaker cs userId character userMessage).2
      userId' character'
    = contextOf cs userId' character'
    ∧ contextOf (getContinuationSpeaker cs userId character).2
        userId' character'
      = contextOf cs userId' character'.
Proof.
  intros userId' character'. split.
  - rewrite shouldContinue_snd. apply contextOf_getUserContext.
  - unfold getContinuationSpeaker.
    pose proof (contextOf_getUserContext cs userId character userId' character').
    by destruct (getUserContext cs userId character).
Qed.

(** ** More on speaker selection *)

Lemma groupConfigs_members_nonnil character group :
  prop groupConfigs character = Some group → members group ≠ [].
Proof.
  intros Hg.
  assert (Forall (λ entry : jsstring * groupConfig, members entry.2 ≠ [])
                 groupConfigs) as H
    by (unfold groupConfigs; repeat constructor; done).
  apply prop_elem_of in Hg. rewrite Forall_forall in H. apply (H _ Hg).
Qed.

Lemma head_filter_member (members mentioned : list jsstring) selected rest :
  List.filter (λ speaker, bool_decide (speaker ∈ members)) mentioned
  = selected :: rest →
  selected ∈ members ∧ selected ∈ mentioned.
Proof.
  intros H.
  assert (In selected (List.filter (λ speaker, bool_decide (speaker ∈ members))
                                   mentioned)) as Hin
    by (rewrite H; left; done).
  apply List.filter_In in Hin as [Hin Hb].
  apply bool_decide_eq_true in Hb. split; [done | by apply list_elem_of_In].
Qed.

(** X8: for a configured group and a draw in [0, 1), [selectSpeakerByContext]
    returns a member of that group, for every message and history: a
    mentioned member on the mention path, a member picked inside the loop
    on the scoring path. *)
Theorem selectSpeaker_returns_member
    (toLowerCase : jsstring → jsstring) (u : Q)
    (character message : jsstring) (conversationHistory : list chat_message)
    (group : groupConfig) :
  prop groupConfigs character = Some group →
  (0 <= u)%Q → (u < 1)%Q →
  ∃ selected,
    selectSpeakerByContext toLowerCase u character message conversationHistory
    = Returns (Some selected)
    ∧ selected ∈ members group.
Proof.
  intros Hg Hu0 Hu1.
  destruct (scoringPath_returns_member toLowerCase u (members group) message
              conversationHistory (groupConfigs_members_nonnil _ _ Hg) Hu0 Hu1)
    as (byScore & Hin & _ & Hpath).
  unfold selectSpeakerByContext. rewrite Hg, Hpath.
  destruct (0 <? length (getMentionedSpeakers message))%nat; [|eauto].
  destruct (List.filter _ _) as [|selected rest] eqn:E; [eauto|].
  apply head_filter_member in E as [Hm _]. eauto.
Qed.

Lemma selectSpeaker_returns_member_witness :
  ∃ selected,
    selectSpeakerByContext asciiLower (1 # 3) (js "嫩牛六方")
      (js "Where is the map?") pangziSpokeLast
    = Returns (Some selected)
    ∧ selected ∈ [js "黑瞎子"; js "解雨臣"; js "霍秀秀";
                  js "王胖子"; js "吴邪"; js "张起灵"].
Proof.
  apply (selectSpeaker_returns_member asciiLower (1 # 3) (js "嫩牛六方")
           (js "Where is the map?") pangziSpokeLast
           {| members := [js "黑瞎子"; js "解雨臣"; js "霍秀秀";
                          js "王胖子"; js "吴邪"; js "张起灵"];
              memberDetails :=
                [(js "黑瞎子", 150); (js "解雨臣", 180); (js "霍秀秀", 160);
                 (js "王胖子", 150); (js "吴邪", 200); (js "张起灵", 30)] |}).
  - vm_compute. reflexivity.
  - vm_compute. discriminate.
  - vm_compute. reflexivity.
Defined.

Lemma weightedWalk_elem (m : gmap (list N) Z) (l : list jsstring)
    (random : Q) (x : jsstring) :
  weightedWalk m l random = Some x → x ∈ l.
Proof.
  revert random. induction l as [|y l IH]; intros random; simpl; [done|].
  destruct (m !! y) as [s|]; [|done].
  destruct (Qle_bool _ _).
  - intros [= ->]. left.
  - intros H. right. eauto.
Qed.

Lemma sumOver_nonneg (m : gmap (list N) Z) (l : list jsstring) :
  (∀ x, x ∈ l → ∃ s, m !! x = Some s ∧ 1 ≤ s) → 0 ≤ sumOver m l.
Proof.
  induction l as [|x l IH]; intros Hl; simpl; [done|].
  destruct (Hl x) as (s & -> & Hs); [left|]. simpl.
  assert (0 ≤ sumOver m l); [|lia]. apply IH. intros y Hy. apply Hl. by right.
Qed.

(** The draws for which the walk stops at a given position. *)
Lemma weightedWalk_stops_at (m : gmap (list N) Z) (pre post : list jsstring)
    (M : jsstring) (s : Z) (random : Q) :
  NoDup (pre ++ M :: post) →
  (∀ x, x ∈ pre → ∃ sx, m !! x = Some sx ∧ 1 ≤ sx) →
  m !! M = Some s →
  weightedWalk m (pre ++ M :: post) random = Some M ↔
  (pre = [] ∨ inject_Z (sumOver m pre) < random)%Q
  ∧ (random <= inject_Z (sumOver m pre) + inject_Z s)%Q.
Proof.
  intros Hnd Hpre HM. revert random.
  induction pre as [|x pre IH]; intros random.
  - cbn [app weightedWalk]. rewrite HM.
    change (inject_Z (sumOver m [])) with 0%Q.
    destruct (Qle_bool (random - inject_Z s) 0) eqn:E.
    + apply Qle_bool_iff in E. split; [|done]. intros _. split; [by left | lra].
    + assert (¬ (random - inject_Z s <= 0)%Q) as Hgt
        by (intros H; apply Qle_bool_iff in H; congruence).
      split.
      * intros H%weightedWalk_elem. apply NoDup_cons in Hnd as [Hnin _].
        done.
      * intros [_ H]. exfalso. apply Hgt. lra.
  - cbn [app weightedWalk].
    destruct (Hpre x) as (sx & Hx & Hsx); [left|]. rewrite Hx.
    simpl in Hnd. apply NoDup_cons in Hnd as [Hnin Hnd].
    assert (x ≠ M) as Hne
      by (intros ->; apply Hnin, elem_of_app; right; left).
    assert (0 ≤ sumOver m pre) as Hnn
      by (apply sumOver_nonneg; intros y Hy; apply Hpre; by right).
    assert (0 <= inject_Z (sumOver m pre))%Q as Hnnq
      by (change 0%Q with (inject_Z 0); by rewrite <- Zle_Qle).
    assert (1 <= inject_Z sx)%Q as Hsxq
      by (change 1%Q with (inject_Z 1); by rewrite <- Zle_Qle).
    cbn [sumOver foldr]. rewrite Hx. cbn [default from_option id].
    fold (sumOver m pre). rewrite inject_Z_plus.
    destruct (Qle_bool (random - inject_Z sx) 0) eqn:E.
    + apply Qle_bool_iff in E. split; [congruence|].
      intros [[?|H] _]; [done|]. exfalso. lra.
    + assert (¬ (random - inject_Z sx <= 0)%Q) as Hgt
        by (intros H; apply Qle_bool_iff in H; congruence).
      rewrite IH; [|done|intros y Hy; apply Hpre; by right].
      split.
      * intros [H1 H2]. split; [right|]; [|lra].
        destruct H1 as [->|H1]; [|lra].
        change (inject_Z (sumOver m [])) with 0%Q. lra.
      * intros [[?|H1] H2]; [done|]. split; [right|]; lra.
Qed.

Lemma sumOver_assignAll (score : jsstring → Z) (members l : list jsstring) :
  (∀ x, x ∈ l → x ∈ members) →
  sumOver (assignAll score members) l = scoreSum score l.
Proof.
  induction l as [|x l IH]; intros Hl; simpl; [done|].
  rewrite lookup_assignAll, decide_True by (apply Hl; left). simpl.
  rewrite IH; [done|]. intros y Hy. apply Hl. by right.
Qed.

(** X9: the weighted walk gives each member a share of the draws equal to
    its score.  For distinct members with scores of at least 1, the walk
    returns M exactly for the draws in the interval that starts after the
    summed scores of the members before M and has the length of M's score
    (for the first member, every draw up to its score). *)
Theorem weightedWalk_share (score : jsstring → Z)
    (pre post : list jsstring) (M : jsstring) (random : Q) :
  NoDup (pre ++ M :: post) →
  (∀ x, x ∈ pre ++ M :: post → 1 ≤ score x) →
  weightedWalk (assignAll score (pre ++ M :: post)) (pre ++ M :: post) random
  = Some M ↔
  (pre = [] ∨ inject_Z (scoreSum score pre) < random)%Q
  ∧ (random <= inject_Z (scoreSum score pre) + inject_Z (score M))%Q.
Proof.
  intros Hnd Hpos.
  rewrite (weightedWalk_stops_at _ pre post M (score M)); [|done| |].
  - rewrite sumOver_assignAll; [done|].
    intros x Hx. apply elem_of_app. by left.
  - intros x Hx. exists (score x).
    rewrite lookup_assignAll, decide_True by (apply elem_of_app; by left).
    split; [done|]. apply Hpos, elem_of_app. by left.
  - rewrite lookup_assignAll, decide_True; [done|].
    apply elem_of_app. right. left.
Qed.

Lemma weightedWalk_share_witness :
  weightedWalk
    (assignAll (λ _, 2) ([js "王胖子"] ++ js "吴邪" :: [js "张起灵"]))
    ([js "王胖子"] ++ js "吴邪" :: [js "张起灵"]) (7 # 2)
  = Some (js "吴邪") ↔
  ([js "王胖子"] = []
   ∨ (inject_Z (scoreSum (λ _, 2%Z) [js "王胖子"]) < 7 # 2)%Q)
  ∧ (7 # 2 <= inject_Z (scoreSum (λ _, 2%Z) [js "王胖子"]) + inject_Z 2%Z)%Q.
Proof.
  apply (weightedWalk_share (λ _, 2) [js "王胖子"] [js "张起灵"] (js "吴邪")
           (7 # 2)).
  - apply (bool_decide_unpack _). vm_compute. exact I.
  - intros x _. lia.
Defined.

(** The fallback loop with a running minimum [c], held by [b]. *)
Lemma leastFrequentFrom_running (sc : gmap (list N) Z) (l : list jsstring)
    (c : Z) (b : jsstring) :
  (leastFrequentFrom sc l (Some c) (Some b) = Some b
   ∧ ∀ x, x ∈ l → c ≤ sc !!! x)
  ∨ ∃ pre m post,
      l = pre ++ m :: post
      ∧ leastFrequentFrom sc l (Some c) (Some b) = Some m
      ∧ sc !!! m < c
      ∧ (∀ x, x ∈ pre → sc !!! m < sc !!! x)
      ∧ (∀ x, x ∈ post → sc !!! m ≤ sc !!! x).
Proof.
  revert c b. induction l as [|y l IH]; intros c b.
  - left. split; [done|]. by intros x ?%elem_of_nil.
  - cbn [leastFrequentFrom]. destruct (Z.ltb_spec (sc !!! y) c) as [Hlt|Hge].
    + right. destruct (IH (sc !!! y) y)
        as [[Hr Hall]|(pre & m & post & -> & Hr & Hm & Hpre & Hpost)].
      * exists [], y, l. split; [done|]. split; [done|]. split; [done|].
        split; [by intros x ?%elem_of_nil | done].
      * exists (y :: pre), m, post. split; [done|]. split; [done|].
        split; [lia|]. split; [|done].
        intros x [->|Hx]%elem_of_cons; [done | by apply Hpre].
    + destruct (IH c b)
        as [[Hr Hall]|(pre & m & post & -> & Hr & Hm & Hpre & Hpost)].
      * left. split; [done|].
        intros x [->|Hx]%elem_of_cons; [done | by apply Hall].
      * right. exists (y :: pre), m, post. split; [done|]. split; [done|].
        split; [done|]. split; [|done].
        intros x [->|Hx]%elem_of_cons; [lia | by apply Hpre].
Qed.

(** X10: the fallback after the loop picks, from a non-empty member list,
    the first member in group order among those with the smallest recency
    count: every member before it has a strictly larger count and every
    member after it a count at least as large. *)
Theorem leastFrequent_first_minimum
    (speakerCount : gmap (list N) Z) (members : list jsstring) :
  members ≠ [] →
  ∃ pre m post,
    members = pre ++ m :: post
    ∧ leastFrequentFrom speakerCount members None (head members) = Some m
    ∧ (∀ x, x ∈ pre → speakerCount !!! m < speakerCount !!! x)
    ∧ (∀ x, x ∈ post → speakerCount !!! m ≤ speakerCount !!! x).
Proof.
  intros Hne. destruct members as [|y l]; [done|].
  cbn [leastFrequentFrom head].
  destruct (leastFrequentFrom_running speakerCount l (speakerCount !!! y) y)
    as [[Hr Hall]|(pre & m & post & -> & Hr & Hm & Hpre & Hpost)].
  - exists [], y, l. split; [done|]. split; [done|].
    split; [by intros x ?%elem_of_nil | done].
  - exists (y :: pre), m, post. split; [done|]. split; [done|].
    split; [|done]. intros x [->|Hx]%elem_of_cons; [done | by apply Hpre].
Qed.

Lemma leastFrequent_first_minimum_witness :
  ∃ pre m post,
    [js "王胖子"; js "吴邪"; js "张起灵"] = pre ++ m :: post
    ∧ leastFrequentFrom
        (speakerCountOf [js "王胖子"; js "吴邪"; js "张起灵"] [js "王胖子"])
        [js "王胖子"; js "吴邪"; js "张起灵"] None
        (head [js "王胖子"; js "吴邪"; js "张起灵"]) = Some m
    ∧ (∀ x, x ∈ pre →
         speakerCountOf [js "王胖子"; js "吴邪"; js "张起灵"] [js "王胖子"] !!! m
         < speakerCountOf [js "王胖子"; js "吴邪"; js "张起灵"] [js "王胖子"] !!! x)
    ∧ (∀ x, x ∈ post →
         speakerCountOf [js "王胖子"; js "吴邪"; js "张起灵"] [js "王胖子"] !!! m
         ≤ speakerCountOf [js "王胖子"; js "吴邪"; js "张起灵"] [js "王胖子"] !!! x).
Proof.
  apply (leastFrequent_first_minimum
           (speakerCountOf [js "王胖子"; js "吴邪"; js "张起灵"] [js "王胖子"])
           [js "王胖子"; js "吴邪"; js "张起灵"]).
  discriminate.
Defined.

Example leastFrequent_after_pangzi :
  leastFrequentFrom
    (speakerCountOf [js "王胖子"; js "吴邪"; js "张起灵"] [js "王胖子"])
    [js "王胖子"; js "吴邪"; js "张起灵"] None (Some (js "王胖子"))
  = Some (js "吴邪").
Proof. vm_compute. reflexivity. Qed.

(** ** More on the reply normaliser *)

Lemma trimStart_head (s : jsstring) (c : N) :
  head (trimStart s) = Some c → isWhiteSpace c = false.
Proof.
  induction s as [|d s IH]; simpl; [done|].
  destruct (isWhiteSpace d) eqn:E; [done|]. simpl. congruence.
Qed.

Lemma trimStart_id (s : jsstring) :
  (∀ c, head s = Some c → isWhiteSpace c = false) → trimStart s = s.
Proof.
  destruct s as [|c s]; [done|]. intros H. simpl. by rewrite (H c).
Qed.

Lemma trimStart_app_solid (l r : jsstring) (c : N) :
  isWhiteSpace c = false →
  trimStart (l ++ c :: r) = trimStart l ++ c :: r.
Proof.
  intros Hc. induction l as [|d l IH]; simpl.
  - by rewrite Hc.
  - by destruct (isWhiteSpace d).
Qed.

Lemma head_reverse {A} (l : list A) : head (reverse l) = last l.
Proof.
  induction l as [|x l IH] using rev_ind; [done|].
  by rewrite reverse_app, last_snoc.
Qed.

Lemma trimEnd_last (s : jsstring) (c : N) :
  last (trimEnd s) = Some c → isWhiteSpace c = false.
Proof.
  unfold trimEnd. rewrite <- head_reverse, reverse_involutive.
  apply trimStart_head.
Qed.

Lemma trimEnd_cons_solid (c : N) (s : jsstring) :
  isWhiteSpace c = false → trimEnd (c :: s) = c :: trimEnd s.
Proof.
  intros Hc. unfold trimEnd. rewrite reverse_cons.
  rewrite trimStart_app_solid by done.
  by rewrite reverse_app.
Qed.

Lemma trimEnd_id (s : jsstring) :
  (∀ c, last s = Some c → isWhiteSpace c = false) → trimEnd s = s.
Proof.
  intros H. unfold trimEnd. rewrite trimStart_id; [apply reverse_involutive|].
  intros c Hc. apply H. by rewrite <- head_reverse.
Qed.

Lemma trim_noEdgeWhiteSpace (s : jsstring) : noEdgeWhiteSpace (trim s).
Proof.
  unfold trim. split; [|apply trimEnd_last].
  intros c. pose proof (trimStart_head s) as Hh.
  destruct (trimStart s) as [|d t]; [done|].
  rewrite trimEnd_cons_solid by (by apply Hh).
  simpl. intros [= ->]. by apply Hh.
Qed.

Lemma trim_idempotent (s : jsstring) : trim (trim s) = trim s.
Proof.
  destruct (trim_noEdgeWhiteSpace s) as [Hh Hl].
  unfold trim at 1. by rewrite trimStart_id, trimEnd_id.
Qed.

(** X11: for every speaker, reply and random draw the normaliser returns a
    string (it never reaches [undefined.trim()]), and that string neither
    starts nor ends with white space. *)
Theorem enforce_returns_trimmed (u : Q) (reply speaker : jsstring) :
  ∃ result,
    enforceCharacterConsistency u reply speaker = Returns result
    ∧ noEdgeWhiteSpace result.
Proof.
  destruct (decide (speaker = js "张起灵")) as [->|Hne].
  - eexists. split; [apply enforce_terse_eq | apply trim_noEdgeWhiteSpace].
  - unfold enforceCharacterConsistency.
    rewrite bool_decide_eq_false_2 by done.
    eexists. split; [done | apply trim_noEdgeWhiteSpace].
Qed.

Lemma stripEmoji_plain (s : jsstring) :
  Forall (λ c, isHighSurrogate c = false) s → stripEmoji s = s.
Proof.
  induction 1 as [|c rest Hc _ IH]; [done|].
  cbn [stripEmoji]. destruct rest as [|d rest']; [done|].
  rewrite Hc. cbn [andb]. by rewrite IH.
Qed.

(** X12: for 张起灵, a reply of at most 20 code units that holds no high
    surrogate (so no character outside the basic plane) is returned as it
    is, trimmed: nothing is stripped, cut or replaced. *)
Theorem enforce_terse_short_plain (u : Q) (reply : jsstring) :
  Forall (λ c, isHighSurrogate c = false) reply →
  (length reply ≤ 20)%nat →
  enforceCharacterConsistency u reply (js "张起灵") = Returns (trim reply).
Proof.
  intros Hplain Hlen. rewrite enforce_terse_eq, stripEmoji_plain by done.
  unfold truncate20.
  by replace (20 <? length reply)%nat with false
    by (symmetry; apply Nat.ltb_ge; lia).
Qed.

Lemma enforce_terse_short_plain_witness :
  enforceCharacterConsistency (1 # 2) (js " 小心，有东西。 ") (js "张起灵")
  = Returns (trim (js " 小心，有东西。 ")).
Proof.
  apply (enforce_terse_short_plain (1 # 2) (js " 小心，有东西。 ")).
  - apply (bool_decide_unpack _). vm_compute. exact I.
  - vm_compute. lia.
Defined.

Lemma codePoints_cons_solid (c : N) (s : jsstring) :
  isHighSurrogate c = false → codePoints (c :: s) = c :: codePoints s.
Proof. intros Hc. simpl. rewrite Hc. by destruct s. Qed.

Lemma isEmoji_astral (c : N) : (c <? 0x10000)%N = true → isEmoji c = false.
Proof.
  intros Hc%N.ltb_lt. unfold isEmoji.
  repeat (apply orb_false_intro); apply andb_false_intro1, N.leb_gt; lia.
Qed.

(** X13: on well-formed UTF-16 text the emoji replacement removes exactly
    the characters of the four emoji ranges and keeps every other
    character, in order; the result is again well-formed. *)
Theorem stripEmoji_removes_emoji (s : jsstring) :
  wellFormed s = true →
  codePoints (stripEmoji s)
  = List.filter (λ cp, negb (isEmoji cp)) (codePoints s)
  ∧ wellFormed (stripEmoji s) = true.
Proof.
  revert s.
  assert (∀ (n : nat) (s : jsstring),
            (length s ≤ n)%nat →
            wellFormed s = true →
            codePoints (stripEmoji s)
            = List.filter (λ cp, negb (isEmoji cp)) (codePoints s)
            ∧ wellFormed (stripEmoji s) = true) as Hind.
  { intros n.
    induction n as [|n IH]; intros s Hlen Hwf.
    { destruct s; [done | simpl in Hlen; lia]. }
    destruct s as [|c rest]; [done|].
    cbn [wellFormed] in Hwf. destruct (isHighSurrogate c) eqn:Hc.
    - destruct rest as [|d rest']; [done|].
      apply andb_true_iff in Hwf as [Hd Hwf].
      destruct (IH rest') as [IH1 IH2]; [simpl in Hlen; lia | done |].
      cbn [stripEmoji codePoints]. rewrite Hc, Hd. cbn [andb List.filter].
      destruct (isEmoji (codePoint c d)) eqn:He; cbn [negb].
      + done.
      + cbn [codePoints wellFormed]. rewrite Hc, Hd. cbn [andb].
        split; [|done]. rewrite <- IH1.
        by destruct (stripEmoji rest').
    - apply andb_true_iff in Hwf as [Hwf Hrest].
      apply andb_true_iff in Hwf as [Hlow Hbmp].
      destruct (IH rest) as [IH1 IH2]; [simpl in Hlen; lia | done |].
      assert (stripEmoji (c :: rest) = c :: stripEmoji rest) as ->.
      { cbn [stripEmoji]. destruct rest; [done|]. by rewrite Hc. }
      rewrite !codePoints_cons_solid by done.
      cbn [List.filter wellFormed]. rewrite isEmoji_astral by done.
      cbn [negb]. rewrite Hc, Hlow, Hbmp, IH1, IH2. done.
  }
  intros s Hwf. by apply (Hind (length s)).
Qed.

Lemma stripEmoji_removes_emoji_witness :
  codePoints (stripEmoji (js "好😀的🤔"))
  = List.filter (λ cp, negb (isEmoji cp)) (codePoints (js "好😀的🤔"))
  ∧ wellFormed (stripEmoji (js "好😀的🤔")) = true.
Proof.
  apply stripEmoji_removes_emoji. vm_compute. reflexivity.
Defined.

Example stripEmoji_keeps_other_symbols :
  stripEmoji (js "好😀的🤔") = js "好的🤔".
Proof. vm_compute. reflexivity. Qed.

(** ** More on the group-chat handler *)

Lemma members_have_details character group speaker :
  prop groupConfigs character = Some group →
  speaker ∈ members group →
  is_Some (prop (memberDetails group) speaker).
Proof.
  intros Hg Hs.
  assert (forallb (λ entry : jsstring * groupConfig,
            forallb (λ m, bool_decide (is_Some (prop (memberDetails entry.2) m)))
                    (members entry.2))
            groupConfigs = true) as H by (vm_compute; reflexivity).
  rewrite forallb_forall in H. apply prop_elem_of, list_elem_of_In in Hg.
  specialize (H _ Hg). rewrite forallb_forall in H.
  apply list_elem_of_In in Hs. specialize (H _ Hs).
  by apply bool_decide_eq_true_1 in H.
Qed.

Lemma selectSpeaker_member (toLowerCase : jsstring → jsstring) (u : Q)
    (character message : jsstring) (conversationHistory : list chat_message)
    (group : groupConfig) :
  prop groupConfigs character = Some group →
  (0 <= u)%Q → (u < 1)%Q →
  ∃ selected,
    selectSpeakerByContext toLowerCase u character message conversationHistory
    = Returns (Some selected)
    ∧ selected ∈ members group.
Proof.
  intros Hg Hu0 Hu1.
  destruct (scoringPath_returns_member toLowerCase u (members group) message
              conversationHistory (groupConfigs_members_nonnil _ _ Hg) Hu0 Hu1)
    as (byScore & Hin & _ & Hpath).
  unfold selectSpeakerByContext. rewrite Hg, Hpath.
  destruct (0 <? length (getMentionedSpeakers message))%nat; [|eauto].
  destruct (List.filter _ _) as [|selected rest] eqn:E; [eauto|].
  apply head_filter_member in E as [Hm _]. eauto.
Qed.

Lemma contextOf_wellFormed cs userId character group :
  wellFormedStore cs →
  prop groupConfigs character = Some group →
  speakerKnown (contextOf cs userId character) group.
Proof.
  intros Hwf Hg. unfold contextOf.
  destruct (lookupContext cs userId character) as [ctx|] eqn:E; simpl.
  - by eapply Hwf.
  - unfold speakerKnown. simpl. lia.
Qed.

Lemma selectTurnSpeaker_member (toLowerCase : jsstring → jsstring) (u : Q)
    (cs : contexts) (userId character message : jsstring)
    (conversationHistory : list chat_message) (group : groupConfig) :
  wellFormedStore cs →
  prop groupConfigs character = Some group →
  (0 <= u)%Q → (u < 1)%Q →
  ∃ selected,
    selectTurnSpeaker toLowerCase u cs userId character message
      conversationHistory = Returns (Some selected)
    ∧ selected ∈ members group.
Proof.
  intros Hwf Hg Hu0 Hu1. unfold selectTurnSpeaker.
  destruct (shouldContinueWithSameSpeaker cs userId character message).1 eqn:E.
  - rewrite shouldContinue_fst in E. cbv zeta in E.
    pose proof (contextOf_wellFormed cs userId character group Hwf Hg) as Hk.
    unfold speakerKnown in Hk.
    destruct (currentSpeaker (contextOf cs userId character)) as [sp|]; [eauto|].
    apply Z.ltb_lt in Hk. by rewrite Hk in E.
  - by apply selectSpeaker_member.
Qed.

Lemma wellFormedStore_getUserContext cs userId character :
  wellFormedStore cs → wellFormedStore (getUserContext cs userId character).2.
Proof.
  intros Hwf userId' character' group ctx Hg Hl.
  destruct (decide ((userId, character) = (userId', character')))
    as [[= <- <-]|Hne].
  - rewrite getUserContext_lookup in Hl. injection Hl as <-.
    by apply contextOf_wellFormed.
  - rewrite getUserContext_lookup_ne in Hl by done. by eapply Hwf.
Qed.

Lemma lookupContext_updateContext now cs userId character speaker userMessage :
  lookupContext (updateContext now cs userId character speaker userMessage)
    userId character
  = Some (contextOf
            (updateContext now cs userId character speaker userMessage)
            userId character).
Proof.
  unfold contextOf, updateContext.
  destruct (getUserContext cs userId character) as [ctx cs'].
  cbv beta iota zeta. by rewrite lookupContext_putContext.
Qed.

Lemma lookupContext_updateContext_ne now cs userId character speaker
    userMessage userId' character' :
  (userId, character) ≠ (userId', character') →
  lookupContext (updateContext now cs userId character speaker userMessage)
    userId' character'
  = lookupContext cs userId' character'.
Proof.
  intros Hne. unfold updateContext.
  pose proof (getUserContext_lookup_ne cs _ _ _ _ Hne) as H.
  destruct (getUserContext cs userId character) as [ctx cs'].
  cbv beta iota zeta. by rewrite lookupContext_putContext_ne.
Qed.

Lemma wellFormedStore_updateContext now cs userId character speaker
    userMessage :
  wellFormedStore cs →
  (∀ group, prop groupConfigs character = Some group →
            speaker ∈ members group) →
  wellFormedStore (updateContext now cs userId character speaker userMessage).
Proof.
  intros Hwf Hsp userId' character' group ctx Hg Hl.
  destruct (decide ((userId, character) = (userId', character')))
    as [[= <- <-]|Hne].
  - rewrite lookupContext_updateContext in Hl. injection Hl as <-.
    rewrite contextOf_updateContext. unfold speakerKnown. simpl. auto.
  - rewrite lookupContext_updateContext_ne in Hl by done. by eapply Hwf.
Qed.

Lemma enforce_total (u : Q) (reply speaker : jsstring) :
  ∃ result, enforceCharacterConsistency u reply speaker = Returns result.
Proof.
  destruct (decide (speaker = js "张起灵")) as [->|Hne].
  - eexists. apply enforce_terse_eq.
  - unfold enforceCharacterConsistency.
    rewrite bool_decide_eq_false_2 by done. eauto.
Qed.

(** X14: in a store whose contexts name speakers of their groups (the
    empty store is one), a turn on a configured group with a draw in
    [0, 1) never throws: whatever the completion call gives, the handler
    responds in the name of a member of the group and leaves such a store
    behind. *)
Theorem handler_responds_as_member
    (toLowerCase : jsstring → jsstring) (uSelect uEnforce uFallback : Q)
    (now : Z) (api : apiResult) (cs : contexts)
    (userId character message : jsstring)
    (conversationHistory : list chat_message) (group : groupConfig) :
  wellFormedStore cs →
  prop groupConfigs character = Some group →
  (0 <= uSelect)%Q → (uSelect < 1)%Q →
  ∃ resp cs',
    handleGroupChatSmart toLowerCase uSelect uEnforce uFallback now api cs
      userId character message conversationHistory = (Returns resp, cs')
    ∧ res_speaker resp ∈ members group
    ∧ wellFormedStore cs'.
Proof.
  intros Hwf Hg Hu0 Hu1.
  destruct (selectTurnSpeaker_member toLowerCase uSelect cs userId character
              message conversationHistory group Hwf Hg Hu0 Hu1)
    as (sp & Hsel & Hsp).
  destruct (members_have_details _ _ _ Hg Hsp) as [maxTokens Hd].
  rewrite (handleGroupChatSmart_selected _ _ _ _ _ _ _ _ _ _ _ _ _ _
             Hg Hsel Hd). cbv zeta.
  pose proof (wellFormedStore_getUserContext cs userId character Hwf) as Hwf1.
  destruct api as [content|]; [|eauto].
  destruct (enforce_total uEnforce (trim content) sp) as [aiReply ->].
  eexists _, _. split; [done|]. split; [done|].
  apply wellFormedStore_updateContext; [done|].
  intros group' Hg'. congruence.
Qed.

Lemma handler_responds_as_member_witness :
  ∃ resp cs',
    handleGroupChatSmart asciiLower (1 # 2) (1 # 2) (1 # 2) 1000
      (ApiReply (js "这得问三叔。")) ∅ (js "user_1") (js "铁三角")
      (js "那条线索后来怎么样了") [] = (Returns resp, cs')
    ∧ res_speaker resp ∈ [js "王胖子"; js "吴邪"; js "张起灵"]
    ∧ wellFormedStore cs'.
Proof.
  apply (handler_responds_as_member asciiLower (1 # 2) (1 # 2) (1 # 2) 1000
           (ApiReply (js "这得问三叔。")) ∅ (js "user_1") (js "铁三角")
           (js "那条线索后来怎么样了") []
           {| members := [js "王胖子"; js "吴邪"; js "张起灵"];
              memberDetails :=
                [(js "王胖子", 150); (js "吴邪", 200); (js "张起灵", 30)] |}).
  - intros userId character group ctx _ H. vm_compute in H. discriminate.
  - vm_compute. reflexivity.
  - vm_compute. discriminate.
  - vm_compute. reflexivity.
Defined.

(** X15: when the completion call answers, the handler replies with the
    normalised text in the name of the selected speaker and records the
    turn: the context of the conversation gets that speaker, the message,
    its topic, a count raised by one and the turn appended to the history
    (cut to the last ten); no other conversation changes. *)
Theorem answered_turn_records_context
    (toLowerCase : jsstring → jsstring) (uSelect uEnforce uFallback : Q)
    (now : Z) (content : jsstring) (cs : contexts)
    (userId character message : jsstring)
    (conversationHistory : list chat_message)
    (group : groupConfig) (selectedSpeaker : jsstring) :
  prop groupConfigs character = Some group →
  selectTurnSpeaker toLowerCase uSelect cs userId character message
    conversationHistory = Returns (Some selectedSpeaker) →
  is_Some (prop (memberDetails group) selectedSpeaker) →
  ∃ aiReply cs',
    handleGroupChatSmart toLowerCase uSelect uEnforce uFallback now
      (ApiReply content) cs userId character message conversationHistory
    = (Returns {| res_reply := Some aiReply;
                  res_speaker := selectedSpeaker;
                  res_fallback := false |}, cs')
    ∧ enforceCharacterConsistency uEnforce (trim content) selectedSpeaker
      = Returns aiReply
    ∧ contextOf cs' userId character
      = (let before := contextOf cs userId character in
         {| currentSpeaker := Some selectedSpeaker;
            topic := extractTopic message;
            lastUserMessage := message;
            messageCount := messageCount before + 1;
            speakerHistory :=
              sliceLast 10
                (speakerHistory before
                 ++ [ {| h_speaker := selectedSpeaker; h_timestamp := now;
                         h_message := message |} ]) |})
    ∧ ∀ userId' character',
        (userId, character) ≠ (userId', character') →
        contextOf cs' userId' character' = contextOf cs userId' character'.
Proof.
  intros Hg Hsel [maxTokens Hd].
  rewrite (handleGroupChatSmart_selected _ _ _ _ _ _ _ _ _ _ _ _ _ _
             Hg Hsel Hd). cbv zeta.
  destruct (enforce_total uEnforce (trim content) selectedSpeaker)
    as [aiReply Hr]. rewrite Hr.
  eexists _, _. split; [done|]. split; [done|]. split.
  - rewrite contextOf_updateContext. cbv zeta.
    rewrite kept_is_sliceLast. by rewrite !contextOf_getUserContext.
  - intros userId' character' Hne.
    rewrite contextOf_updateContext_ne by done.
    apply contextOf_getUserContext.
Qed.

Lemma answered_turn_records_context_witness :
  ∃ aiReply cs',
    handleGroupChatSmart asciiLower (1 # 2) (1 # 2) (1 # 2) 1000
      (ApiReply (js " 三叔没说过。 ")) talkingToPangzi (js "user_1")
      (js "铁三角") (js "吴邪在吗") []
    = (Returns {| res_reply := Some aiReply;
                  res_speaker := js "吴邪";
                  res_fallback := false |}, cs')
    ∧ enforceCharacterConsistency (1 # 2) (trim (js " 三叔没说过。 "))
        (js "吴邪") = Returns aiReply
    ∧ contextOf cs' (js "user_1") (js "铁三角")
      = (let before := contextOf talkingToPangzi (js "user_1") (js "铁三角") in
         {| currentSpeaker := Some (js "吴邪");
            topic := extractTopic (js "吴邪在吗");
            lastUserMessage := js "吴邪在吗";
            messageCount := messageCount before + 1;
            speakerHistory :=
              sliceLast 10
                (speakerHistory before
                 ++ [ {| h_speaker := js "吴邪"; h_timestamp := 1000;
                         h_message := js "吴邪在吗" |} ]) |})
    ∧ ∀ userId' character',
        (js "user_1", js "铁三角") ≠ (userId', character') →
        contextOf cs' userId' character'
        = contextOf talkingToPangzi userId' character'.
Proof.
  apply (answered_turn_records_context asciiLower (1 # 2) (1 # 2) (1 # 2)
           1000 (js " 三叔没说过。 ") talkingToPangzi (js "user_1")
           (js "铁三角") (js "吴邪在吗") []
           {| members := [js "王胖子"; js "吴邪"; js "张起灵"];
              memberDetails :=
                [(js "王胖子", 150); (js "吴邪", 200); (js "张起灵", 30)] |}
           (js "吴邪")).
  - vm_compute. reflexivity.
  - vm_compute. reflexivity.
  - exists 200. vm_compute. reflexivity.
Defined.

(** X16: when the continuity check holds, the turn is answered in the name
    of the context's current speaker whatever the selection draw and the
    supplied history: the selector is not consulted. *)
Theorem continued_turn_keeps_speaker
    (toLowerCase : jsstring → jsstring) (uSelect uEnforce uFallback : Q)
    (now : Z) (api : apiResult) (cs : contexts)
    (userId character message : jsstring)
    (conversationHistory : list chat_message)
    (group : groupConfig) (speaker : jsstring) :
  (shouldContinueWithSameSpeaker cs userId character message).1 = true →
  currentSpeaker (contextOf cs userId character) = Some speaker →
  prop groupConfigs character = Some group →
  is_Some (prop (memberDetails group) speaker) →
  ∃ resp cs',
    handleGroupChatSmart toLowerCase uSelect uEnforce uFallback now api cs
      userId character message conversationHistory = (Returns resp, cs')
    ∧ res_speaker resp = speaker.
Proof.
  intros Hc Hsp Hg [maxTokens Hd].
  assert (selectTurnSpeaker toLowerCase uSelect cs userId character message
            conversationHistory = Returns (Some speaker)) as Hsel
    by (unfold selectTurnSpeaker; by rewrite Hc, Hsp).
  rewrite (handleGroupChatSmart_selected _ _ _ _ _ _ _ _ _ _ _ _ _ _
             Hg Hsel Hd). cbv zeta.
  destruct api as [content|]; [|eauto].
  destruct (enforce_total uEnforce (trim content) speaker) as [aiReply ->].
  eauto.
Qed.

Lemma continued_turn_keeps_speaker_witness :
  ∃ resp cs',
    handleGroupChatSmart asciiLower (1 # 2) (1 # 2) (1 # 2) 1000
      (ApiReply (js "走。")) talkingToXiaoge (js "user_1") (js "铁三角")
      (js "然后呢") pangziSpokeLast = (Returns resp, cs')
    ∧ res_speaker resp = js "张起灵".
Proof.
  apply (continued_turn_keeps_speaker asciiLower (1 # 2) (1 # 2) (1 # 2) 1000
           (ApiReply (js "走。")) talkingToXiaoge (js "user_1") (js "铁三角")
           (js "然后呢") pangziSpokeLast
           {| members := [js "王胖子"; js "吴邪"; js "张起灵"];
              memberDetails :=
                [(js "王胖子", 150); (js "吴邪", 200); (js "张起灵", 30)] |}).
  - vm_compute. reflexivity.
  - vm_compute. reflexivity.
  - vm_compute. reflexivity.
  - exists 30. vm_compute. reflexivity.
Defined.

Lemma shouldContinue_getUserContext cs userId character userMessage :
  shouldContinueWithSameSpeaker (getUserContext cs userId character).2
    userId character userMessage
  = shouldContinueWithSameSpeaker cs userId character userMessage.
Proof.
  unfold shouldContinueWithSameSpeaker. rewrite getUserContext_idem.
  pose proof (getUserContext_fst cs userId character) as Hf.
  destruct (getUserContext cs userId character) as [ctx cs1].
  simpl in Hf. by subst ctx.
Qed.

Lemma failed_turn_store (toLowerCase : jsstring → jsstring)
    (uSelect uEnforce uFallback : Q) (now : Z) (cs : contexts)
    (userId character message : jsstring)
    (conversationHistory : list chat_message) :
  (handleGroupChatSmart toLowerCase uSelect uEnforce uFallback now ApiError cs
     userId character message conversationHistory).2
  = (getUserContext cs userId character).2.
Proof.
  unfold handleGroupChatSmart.
  pose proof (shouldContinue_snd cs userId character message) as Hs.
  destruct (shouldContinueWithSameSpeaker cs userId character message)
    as [b cs1]. cbn [snd] in Hs. subst cs1. cbv beta iota.
  destruct b.
  - rewrite getContinuationSpeaker_eq.
    destruct (currentSpeaker _) as [sp|]; [|done].
    destruct (prop groupConfigs character) as [g|]; [|done].
    by destruct (prop (memberDetails g) sp).
  - destruct (selectSpeakerByContext _ _ _ _ _) as [[sp|]|]; [|done|done].
    destruct (prop groupConfigs character) as [g|]; [|done].
    by destruct (prop (memberDetails g) sp).
Qed.

(** X17: a turn whose completion call failed is invisible to the next turn
    of the same conversation: whatever that next turn is, the handler
    gives the same response and the same store as if the failed turn had
    not taken place.  This holds also when the failed turn threw. *)
Theorem failed_turn_invisible
    (toLowerCase : jsstring → jsstring)
    (uSelect uEnforce uFallback uSelect' uEnforce' uFallback' : Q)
    (now now' : Z) (api' : apiResult) (cs : contexts)
    (userId character message message' : jsstring)
    (conversationHistory conversationHistory' : list chat_message) :
  let failed :=
    handleGroupChatSmart toLowerCase uSelect uEnforce uFallback now ApiError
      cs userId character message conversationHistory in
  handleGroupChatSmart toLowerCase uSelect' uEnforce' uFallback' now' api'
    failed.2 userId character message' conversationHistory'
  = handleGroupChatSmart toLowerCase uSelect' uEnforce' uFallback' now' api'
      cs userId character message' conversationHistory'.
Proof.
  cbv zeta. rewrite failed_turn_store.
  unfold handleGroupChatSmart. by rewrite shouldContinue_getUserContext.
Qed.

(** ** The response cache and single chats *)

(** X18: a value stored in the cache is returned by every lookup of its
    key up to and including its expiry instant, and such a lookup leaves
    the cache as it is; a lookup after the expiry returns [null] and
    removes the entry. *)
Theorem cache_get_after_set (now now' ttl : Z)
    (cache : gmap (list N) cacheItem) (key value : jsstring) :
  cache_get now' (cache_set now cache key value ttl) key
  = if bool_decide (now' ≤ now + ttl)
    then (Some value, cache_set now cache key value ttl)
    else (None, delete key cache).
Proof.
  unfold cache_get, cache_set. rewrite lookup_insert_eq.
  cbn [item_expiry item_value]. case_bool_decide as H.
  - by replace (now + ttl <? now') with false
      by (symmetry; apply Z.ltb_ge; lia).
  - replace (now + ttl <? now') with true
      by (symmetry; apply Z.ltb_lt; lia).
    by rewrite delete_insert_eq.
Qed.

Lemma cache_get_set_live (now now' ttl : Z)
    (cache : gmap (list N) cacheItem) (key value : jsstring) :
  now' ≤ now + ttl →
  cache_get now' (cache_set now cache key value ttl) key
  = (Some value, cache_set now cache key value ttl).
Proof.
  intros H. unfold cache_get, cache_set. rewrite lookup_insert_eq.
  cbn [item_expiry item_value].
  by replace (now + ttl <? now') with false by (symmetry; apply Z.ltb_ge; lia).
Qed.

Lemma cache_get_falsy_stays (now now' : Z) (cache : gmap (list N) cacheItem)
    (key : jsstring) :
  truthy (cache_get now cache key).1 = false →
  truthy (cache_get now' (cache_get now cache key).2 key).1 = false.
Proof.
  unfold cache_get. destruct (cache !! key) as [item|] eqn:E.
  - destruct (item_expiry item <? now) eqn:Ex; cbn [fst snd].
    + by rewrite lookup_delete_eq.
    + intros Hv. rewrite E. by destruct (item_expiry item <? now').
  - cbn [fst snd]. by rewrite E.
Qed.

(** X19: a single chat answered by the service is answered from the cache
    when the same request (character, message, history) comes again up to
    300000 ms after the reply was stored: with the same non-empty reply,
    marked as cached, without regard to the service and without changing
    the cache. *)
Theorem single_chat_repeat_is_cached
    (nowGet nowSet nowGet' nowSet' : Z) (api' : apiResult)
    (cache : gmap (list N) cacheItem) (character message aiReply : jsstring)
    (conversationHistory : list chat_message) :
  let cacheKey := generateCacheKey character message conversationHistory None in
  let first :=
    handleSingleChat nowGet nowSet (ApiReply aiReply) cache character message
      conversationHistory in
  truthy (cache_get nowGet cache cacheKey).1 = false →
  aiReply ≠ [] →
  nowGet' ≤ nowSet + 300000 →
  sres_reply first.1 = Some aiReply
  ∧ handleSingleChat nowGet' nowSet' api' first.2 character message
      conversationHistory
    = ({| sres_reply := Some aiReply; sres_cached := true;
          sres_fallback := false |}, first.2).
Proof.
  intros cacheKey first Hmiss Hne Hnow. subst first.
  unfold handleSingleChat. fold cacheKey.
  destruct (cache_get nowGet cache cacheKey) as [cached cache1].
  cbn [fst] in Hmiss. rewrite Hmiss. cbn [fst snd sres_reply].
  split; [done|].
  rewrite cache_get_set_live by done.
  destruct aiReply; [done|]. reflexivity.
Qed.

Lemma single_chat_repeat_is_cached_witness :
  let cacheKey := generateCacheKey (js "韩立") (js "道友请留步") [] None in
  let first :=
    handleSingleChat 1000 2500 (ApiReply (js "何事？")) ∅ (js "韩立")
      (js "道友请留步") [] in
  sres_reply first.1 = Some (js "何事？")
  ∧ handleSingleChat 302500 302600 ApiError first.2 (js "韩立")
      (js "道友请留步") []
    = ({| sres_reply := Some (js "何事？"); sres_cached := true;
          sres_fallback := false |}, first.2).
Proof.
  apply (single_chat_repeat_is_cached 1000 2500 302500 302600 ApiError ∅
           (js "韩立") (js "道友请留步") (js "何事？") []).
  - vm_compute. reflexivity.
  - vm_compute. discriminate.
  - vm_compute. discriminate.
Defined.

(** X20: a single chat whose request fails answers with the fallback and
    stores nothing: afterwards no lookup of the request's key, at any
    time, yields a reply to serve, so the same request goes to the service
    again. *)
Theorem single_chat_failure_not_cached
    (nowGet nowSet : Z) (cache : gmap (list N) cacheItem)
    (character message : jsstring) (conversationHistory : list chat_message) :
  let cacheKey := generateCacheKey character message conversationHistory None in
  let failed :=
    handleSingleChat nowGet nowSet ApiError cache character message
      conversationHistory in
  truthy (cache_get nowGet cache cacheKey).1 = false →
  sres_fallback failed.1 = true
  ∧ sres_cached failed.1 = false
  ∧ sres_reply failed.1 = getFallbackResponse character
  ∧ ∀ now', truthy (cache_get now' failed.2 cacheKey).1 = false.
Proof.
  intros cacheKey failed Hmiss. subst failed.
  pose proof (λ now', cache_get_falsy_stays nowGet now' cache cacheKey Hmiss)
    as Hstay.
  unfold handleSingleChat. fold cacheKey.
  destruct (cache_get nowGet cache cacheKey) as [cached cache1].
  cbn [fst snd] in *. rewrite Hmiss. cbn [fst snd]. done.
Qed.

Lemma single_chat_failure_not_cached_witness :
  let cacheKey := generateCacheKey (js "韩立") (js "道友请留步") [] None in
  let failed :=
    handleSingleChat 1000 2500 ApiError ∅ (js "韩立") (js "道友请留步") [] in
  sres_fallback failed.1 = true
  ∧ sres_cached failed.1 = false
  ∧ sres_reply failed.1 = getFallbackResponse (js "韩立")
  ∧ ∀ now', truthy (cache_get now' failed.2 cacheKey).1 = false.
Proof.
  apply (single_chat_failure_not_cached 1000 2500 ∅ (js "韩立")
           (js "道友请留步") []).
  vm_compute. reflexivity.
Defined.

Lemma sliceLast_sliceLast {A} (n : nat) (l : list A) :
  sliceLast n (sliceLast n l) = sliceLast n l.
Proof.
  pose proof (sliceLast_app_sliceLast n l []) as H.
  by rewrite !app_nil_r in H.
Qed.

(** X21: the rendering of the history for the prompt depends only on the
    last six entries of a non-empty history: older entries do not enter
    the prompt.  (An empty history is rendered as the fixed opening
    sentence.) *)
Theorem formatConversationHistory_last_six
    (conversationHistory : list chat_message) :
  conversationHistory ≠ [] →
  formatConversationHistory conversationHistory
  = formatConversationHistory (sliceLast 6 conversationHistory).
Proof.
  intros Hne. unfold formatConversationHistory.
  assert (length conversationHistory ≠ 0)%nat as Hlen
    by (by destruct conversationHistory).
  rewrite sliceLast_sliceLast, sliceLast_length.
  apply Nat.eqb_neq in Hlen as Hlen'. rewrite Hlen'.
  by replace (length conversationHistory `min` 6 =? 0)%nat with false
    by (symmetry; apply Nat.eqb_neq; lia).
Qed.

Lemma formatConversationHistory_last_six_witness :
  formatConversationHistory pangziSpokeLast
  = formatConversationHistory (sliceLast 6 pangziSpokeLast).
Proof.
  apply formatConversationHistory_last_six. discriminate.
Defined.

Example formatConversationHistory_empty :
  formatConversationHistory [] = js "这是对话的开始".
Proof. reflexivity. Qed.

(** ** User sessions *)

Lemma getSession_live (tCheck tTouch : Z)
    (sessions : gmap (list N) sessionData) (sessionId : jsstring)
    (session : sessionData) :
  sessions !! sessionId = Some session →
  tCheck - lastActivity session ≤ sessionTimeout →
  getSession tCheck tTouch sessions sessionId
  = (Some (touch tTouch session),
     <[sessionId := touch tTouch session]> sessions).
Proof.
  intros Hs Hlive. unfold getSession. rewrite Hs.
  by replace (sessionTimeout <? tCheck - lastActivity session) with false
    by (symmetry; apply Z.ltb_ge; lia).
Qed.

Lemma getSession_expired (tCheck tTouch : Z)
    (sessions : gmap (list N) sessionData) (sessionId : jsstring)
    (session : sessionData) :
  sessions !! sessionId = Some session →
  sessionTimeout < tCheck - lastActivity session →
  getSession tCheck tTouch sessions sessionId
  = (None, delete sessionId sessions).
Proof.
  intros Hs Hexp. unfold getSession. rewrite Hs.
  by replace (sessionTimeout <? tCheck - lastActivity session) with true
    by (symmetry; apply Z.ltb_lt; lia).
Qed.

(** X22: session expiry slides with use.  A session that [getSession]
    returned stays available for 24 hours counted from that access, not
    from its creation; the first access later than that returns [null] and
    removes the session, after which it is unknown at any time. *)
Theorem session_expiry_slides (tCheck tTouch tCheck' tTouch' : Z)
    (sessions : gmap (list N) sessionData) (sessionId : jsstring)
    (session : sessionData) :
  let accessed := getSession tCheck tTouch sessions sessionId in
  accessed.1 = Some session →
  (tCheck' - tTouch ≤ sessionTimeout →
   (getSession tCheck' tTouch' accessed.2 sessionId).1
   = Some (touch tTouch' session))
  ∧ (sessionTimeout < tCheck' - tTouch →
     (getSession tCheck' tTouch' accessed.2 sessionId).1 = None
     ∧ ∀ t1 t2,
         (getSession t1 t2
            (getSession tCheck' tTouch' accessed.2 sessionId).2 sessionId).1
         = None).
Proof.
  cbv zeta. intros Hacc.
  assert (∃ s0, sessions !! sessionId = Some s0
                ∧ tCheck - lastActivity s0 ≤ sessionTimeout
                ∧ session = touch tTouch s0) as (s0 & Hs0 & Hlive0 & ->).
  { unfold getSession in Hacc.
    destruct (sessions !! sessionId) as [s0|]; [|done].
    destruct (Z.ltb_spec sessionTimeout (tCheck - lastActivity s0));
      [done|]. injection Hacc as <-. eauto. }
  rewrite (getSession_live _ _ _ _ _ Hs0 Hlive0). cbn [snd].
  assert (<[sessionId := touch tTouch s0]> sessions !! sessionId
          = Some (touch tTouch s0)) as Hl by apply lookup_insert_eq.
  split.
  - intros Hlive. by rewrite (getSession_live _ _ _ _ _ Hl Hlive).
  - intros Hexp. rewrite (getSession_expired _ _ _ _ _ Hl Hexp).
    split; [done|]. intros t1 t2. cbn [snd].
    unfold getSession. by rewrite lookup_delete_eq.
Qed.

Lemma session_expiry_slides_witness :
  let accessed := getSession 80000000 80000001 oneSession (js "3f9a") in
  let session :=
    {| s_userId := js "user_1"; createdAt := 0; lastActivity := 80000001;
       prayerCount := 0; lastPrayerReset := 0 |} in
  (160000000 - 80000001 ≤ sessionTimeout →
   (getSession 160000000 160000002 accessed.2 (js "3f9a")).1
   = Some (touch 160000002 session))
  ∧ (sessionTimeout < 160000000 - 80000001 →
     (getSession 160000000 160000002 accessed.2 (js "3f9a")).1 = None
     ∧ ∀ t1 t2,
         (getSession t1 t2
            (getSession 160000000 160000002 accessed.2 (js "3f9a")).2
            (js "3f9a")).1
         = None).
Proof.
  apply (session_expiry_slides 80000000 80000001 160000000 160000002
           oneSession (js "3f9a")).
  vm_compute. reflexivity.
Defined.

(** X23: the prayer quota.  For a live session inside its 24-hour prayer
    window, [updatePrayerCount] returns the count raised by one, and a
    following [getRemainingPrayers], still inside the window, returns
    [max(0, 3 - count)]: the remaining prayers never go below 0. *)
Theorem prayer_quota_decreases
    (tCheck tTouch now tCheck' tTouch' now' : Z)
    (sessions : gmap (list N) sessionData) (sessionId : jsstring)
    (session : sessionData) :
  sessions !! sessionId = Some session →
  tCheck - lastActivity session ≤ sessionTimeout →
  now - lastPrayerReset session ≤ 24 * 60 * 60 * 1000 →
  tCheck' - tTouch ≤ sessionTimeout →
  now' - lastPrayerReset session ≤ 24 * 60 * 60 * 1000 →
  let updated := updatePrayerCount tCheck tTouch now sessions sessionId in
  updated.1 = prayerCount session + 1
  ∧ (getRemainingPrayers tCheck' tTouch' now' updated.2 sessionId).1
    = Z.max 0 (3 - (prayerCount session + 1)).
Proof.
  intros Hs Hlive Hwin Hlive' Hwin'. cbv zeta.
  unfold updatePrayerCount. rewrite (getSession_live _ _ _ _ _ Hs Hlive).
  cbn [lastPrayerReset touch].
  replace (24 * 60 * 60 * 1000 <? now - lastPrayerReset session) with false
    by (symmetry; apply Z.ltb_ge; lia).
  cbn [fst snd prayerCount countPrayer touch]. split; [done|].
  unfold getRemainingPrayers.
  erewrite getSession_live;
    [|rewrite insert_insert_eq; apply lookup_insert_eq | cbn; lia].
  cbn [lastPrayerReset prayerCount touch countPrayer].
  by replace (24 * 60 * 60 * 1000 <? now' - lastPrayerReset session) with false
    by (symmetry; apply Z.ltb_ge; lia).
Qed.

Lemma prayer_quota_decreases_witness :
  let updated := updatePrayerCount 1000 1001 1002 oneSession (js "3f9a") in
  updated.1 = 0 + 1
  ∧ (getRemainingPrayers 2000 2001 2002 updated.2 (js "3f9a")).1
    = Z.max 0 (3 - (0 + 1)).
Proof.
  apply (prayer_quota_decreases 1000 1001 1002 2000 2001 2002 oneSession
           (js "3f9a")
           {| s_userId := js "user_1"; createdAt := 0; lastActivity := 0;
              prayerCount := 0; lastPrayerReset := 0 |}).
  - vm_compute. reflexivity.
  - vm_compute. discriminate.
  - vm_compute. discriminate.
  - vm_compute. discriminate.
  - vm_compute. discriminate.
Defined.

(** X24: more than 24 hours after the last reset the quota is restored:
    whatever the count was, [getRemainingPrayers] returns 3 and starts a
    new window, and [updatePrayerCount] restarts the count at 1. *)
Theorem prayer_quota_resets (tCheck tTouch now : Z)
    (sessions : gmap (list N) sessionData) (sessionId : jsstring)
    (session : sessionData) :
  sessions !! sessionId = Some session →
  tCheck - lastActivity session ≤ sessionTimeout →
  24 * 60 * 60 * 1000 < now - lastPrayerReset session →
  getRemainingPrayers tCheck tTouch now sessions sessionId
  = (3, <[sessionId := resetPrayers now (touch tTouch session)]> sessions)
  ∧ (updatePrayerCount tCheck tTouch now sessions sessionId).1 = 1.
Proof.
  intros Hs Hlive Hold.
  unfold getRemainingPrayers, updatePrayerCount.
  rewrite (getSession_live _ _ _ _ _ Hs Hlive).
  cbn [lastPrayerReset touch].
  replace (24 * 60 * 60 * 1000 <? now - lastPrayerReset session) with true
    by (symmetry; apply Z.ltb_lt; lia).
  by rewrite insert_insert_eq.
Qed.

Lemma prayer_quota_resets_witness :
  getRemainingPrayers 86400000 86400001 86400002 oneSession (js "3f9a")
  = (3, <[js "3f9a" :=
            resetPrayers 86400002
              (touch 86400001
                 {| s_userId := js "user_1"; createdAt := 0;
                    lastActivity := 0; prayerCount := 0;
                    lastPrayerReset := 0 |})]> oneSession)
  ∧ (updatePrayerCount 86400000 86400001 86400002 oneSession (js "3f9a")).1
    = 1.
Proof.
  apply (prayer_quota_resets 86400000 86400001 86400002 oneSession
           (js "3f9a")).
  - vm_compute. reflexivity.
  - vm_compute. discriminate.
  - vm_compute. reflexivity.
Defined.

(** X25: the periodic clean-up is invisible to session lookups: a lookup
    made at or after the clean-up instant gives the same answer on the
    cleaned store as on the store that was not cleaned. *)
Theorem cleanup_invisible_to_getSession (now tCheck tTouch : Z)
    (sessions : gmap (list N) sessionData) (sessionId : jsstring) :
  now ≤ tCheck →
  (getSession tCheck tTouch (cleanupExpiredSessions now sessions) sessionId).1
  = (getSession tCheck tTouch sessions sessionId).1.
Proof.
  intros Hle. unfold getSession, cleanupExpiredSessions.
  destruct (sessions !! sessionId) as [session|] eqn:E.
  - destruct (decide (sessionTimeout < now - lastActivity session))
      as [Hexp|Hkeep].
    + rewrite map_lookup_filter_None_2.
      * replace (sessionTimeout <? tCheck - lastActivity session) with true;
          [done|]. symmetry. apply Z.ltb_lt. lia.
      * right. intros x Hx. rewrite E in Hx. injection Hx as <-. tauto.
    + rewrite (map_lookup_filter_Some_2 _ _ _ session) by done.
      by destruct (sessionTimeout <? tCheck - lastActivity session).
  - rewrite map_lookup_filter_None_2; [done | by left].
Qed.

Lemma cleanup_invisible_to_getSession_witness :
  (getSession 90000000 90000001 (cleanupExpiredSessions 87000000 oneSession)
     (js "3f9a")).1
  = (getSession 90000000 90000001 oneSession (js "3f9a")).1.
Proof.
  apply cleanup_invisible_to_getSession. vm_compute. discriminate.
Defined.

(** X26: when 张起灵 is the speaker of an answered group turn, the reply
    sent to the user has at most 23 code units and no white space at
    either end, whatever text the completion service returned. *)
Theorem terse_speaker_reply_bounded
    (toLowerCase : jsstring → jsstring) (uSelect uEnforce uFallback : Q)
    (now : Z) (content : jsstring) (cs : contexts)
    (userId character message : jsstring)
    (conversationHistory : list chat_message) (group : groupConfig) :
  prop groupConfigs character = Some group →
  selectTurnSpeaker toLowerCase uSelect cs userId character message
    conversationHistory = Returns (Some (js "张起灵")) →
  is_Some (prop (memberDetails group) (js "张起灵")) →
  ∃ reply cs',
    handleGroupChatSmart toLowerCase uSelect uEnforce uFallback now
      (ApiReply content) cs userId character message conversationHistory
    = (Returns {| res_reply := Some reply;
                  res_speaker := js "张起灵";
                  res_fallback := false |}, cs')
    ∧ (length reply ≤ 23)%nat
    ∧ noEdgeWhiteSpace reply.
Proof.
  intros Hg Hsel [maxTokens Hd].
  rewrite (handleGroupChatSmart_selected _ _ _ _ _ _ _ _ _ _ _ _ _ _
             Hg Hsel Hd). cbv zeta.
  rewrite enforce_terse_eq.
  eexists _, _. split; [done|]. split.
  - etrans; [apply trim_length | apply truncate20_length].
  - apply trim_noEdgeWhiteSpace.
Qed.

Lemma terse_speaker_reply_bounded_witness :
  ∃ reply cs',
    handleGroupChatSmart asciiLower (1 # 2) (1 # 2) (1 # 2) 1000
      (ApiReply (js "前面的路不安全，跟紧我，不要碰墙上的任何东西，也不要回头看。"))
      talkingToXiaoge (js "user_1") (js "铁三角") (js "然后呢") []
    = (Returns {| res_reply := Some reply;
                  res_speaker := js "张起灵";
                  res_fallback := false |}, cs')
    ∧ (length reply ≤ 23)%nat
    ∧ noEdgeWhiteSpace reply.
Proof.
  apply (terse_speaker_reply_bounded asciiLower (1 # 2) (1 # 2) (1 # 2) 1000
           (js "前面的路不安全，跟紧我，不要碰墙上的任何东西，也不要回头看。")
           talkingToXiaoge (js "user_1") (js "铁三角") (js "然后呢") []
           {| members := [js "王胖子"; js "吴邪"; js "张起灵"];
              memberDetails :=
                [(js "王胖子", 150); (js "吴邪", 200); (js "张起灵", 30)] |}).
  - vm_compute. reflexivity.
  - vm_compute. reflexivity.
  - exists 30. vm_compute. reflexivity.
Defined.
